(** * Categories and questions API: slugs, validation, services and routes

    A shallow embedding of the data-access layer (categories.db.ts,
    questions.db.ts), of the schemas it validates payloads with, of the
    relational store declared in schema.prisma and of the /questions/:id
    routes of index.ts, followed by the properties proved about them. *)

From Stdlib Require Import String Ascii List ZArith NArith QArith Bool Lia.
From Stdlib Require Import Permutation Sorted.
From Equations Require Import Equations.
Import ListNotations.

Local Open Scope string_scope.
Local Open Scope Z_scope.

(* ===================================================================== *)
(** * Part I: the embedding *)
(* ===================================================================== *)

(** ** Strings

    A JavaScript string is a sequence of UTF-16 code units.  The development
    covers the code units U+0000 to U+00FF, one [ascii] each; on these
    [toLowerCase], [\s] and [\w] are the tables below. *)

Module JsString.

Definition code (c : ascii) : N := N_of_ascii c.

Definition inRange (lo hi : N) (c : ascii) : bool :=
  ((lo <=? code c) && (code c <=? hi))%N.

(** [\s]: TAB, LF, VT, FF, CR, SPACE and NO-BREAK SPACE. *)
Definition isWhiteSpace (c : ascii) : bool :=
  inRange 9 13 c || (code c =? 32)%N || (code c =? 160)%N.

(** [\w]: [A-Za-z0-9_]. *)
Definition isWordChar (c : ascii) : bool :=
  inRange 97 122 c || inRange 65 90 c || inRange 48 57 c || (code c =? 95)%N.

Definition isHyphen (c : ascii) : bool := (code c =? 45)%N.

(** [[^\w-]]. *)
Definition isNotWordOrHyphen (c : ascii) : bool :=
  negb (isWordChar c || isHyphen c).

Definition isDigit (c : ascii) : bool := inRange 48 57 c.

(** A-Z, and the upper-case letters U+00C0 to U+00DE (U+00D7 is the
    multiplication sign), have their lower-case form 32 code units up. *)
Definition isUpper (c : ascii) : bool :=
  inRange 65 90 c || (inRange 192 222 c && negb (code c =? 215)%N).

Definition lowerChar (c : ascii) : ascii :=
  if isUpper c then ascii_of_N (code c + 32) else c.

Fixpoint toLowerCase (s : string) : string :=
  match s with
  | EmptyString => EmptyString
  | String c t => String (lowerChar c) (toLowerCase t)
  end.

(** The rest of [s] after the longest prefix made of [cls] characters: where
    a greedy [cls+] match that starts at the head of [s] ends. *)
Fixpoint skipClass (cls : ascii -> bool) (s : string) : string :=
  match s with
  | EmptyString => EmptyString
  | String c t => if cls c then skipClass cls t else s
  end.

Lemma skipClass_length (cls : ascii -> bool) (s : string) :
  (String.length (skipClass cls s) <= String.length s)%nat.
Proof.
  induction s as [|c t IH]; simpl; [lia|].
  destruct (cls c); simpl; lia.
Qed.

(** [s.replace(/C+/g, rep)] for a character class [C]: at each position the
    matcher either finds a greedy run of [C], emits [rep] and resumes after
    the run, or copies the character and moves on. *)
Equations? replaceAllPlus (cls : ascii -> bool) (rep : string) (s : string)
  : string by wf (String.length s) lt :=
replaceAllPlus cls rep EmptyString := EmptyString;
replaceAllPlus cls rep (String c t) with cls c := {
  | true := rep ++ replaceAllPlus cls rep (skipClass cls t);
  | false := String c (replaceAllPlus cls rep t) }.
Proof.
  pose proof (skipClass_length cls t); lia.
Qed.

(** The slug expression shared by createCategory, updateCategory,
    createQuestion and updateQuestion:
    [.toLowerCase().replace(/\s+/g, '-').replace(/[^\w-]+/g, '')]. *)
Definition slugify (s : string) : string :=
  replaceAllPlus isNotWordOrHyphen ""
    (replaceAllPlus isWhiteSpace "-" (toLowerCase s)).

(** A string is truthy unless it is empty. *)
Definition truthy (s : string) : bool :=
  match s with EmptyString => false | _ => true end.

(** [if (text)] on a property that may be absent: the text when it is there
    and truthy. *)
Definition supplied (text : option string) : option string :=
  match text with
  | Some s => if truthy s then Some s else None
  | None => None
  end.

(** [parseInt(s, 10)]: leading white space is skipped, one sign is read, then
    the longest prefix of decimal digits; [None] stands for NaN. *)
Definition digitValue (c : ascii) : Z := Z.of_N (code c) - 48.

Fixpoint readDigits (acc : option Z) (s : string) : option Z :=
  match s with
  | EmptyString => acc
  | String c t =>
      if isDigit c
      then readDigits
             (Some (10 * match acc with Some a => a | None => 0 end
                    + digitValue c)) t
      else acc
  end.

Definition parseInt (s : string) : option Z :=
  let s1 := skipClass isWhiteSpace s in
  match s1 with
  | String "-" t => option_map Z.opp (readDigits None t)
  | String "+" t => readDigits None t
  | _ => readDigits None s1
  end.

(** Notions to speak of what parseInt reads: the text after one sign,
    whether a text starts with a digit, whether it is digits only. *)
Definition dropSign (s : string) : string :=
  match s with
  | String c t => if Ascii.eqb c "-" || Ascii.eqb c "+" then t else s
  | EmptyString => s
  end.

Definition startsWithDigit (s : string) : bool :=
  match s with
  | String c _ => isDigit c
  | EmptyString => false
  end.

Fixpoint allDigits (s : string) : bool :=
  match s with
  | EmptyString => true
  | String c t => isDigit c && allDigits t
  end.

Definition isNumericString (s : string) : bool := truthy s && allDigits s.

End JsString.

(** ** Values

    Numbers are NaN or a rational (every finite double is one); the value
    handed to a validator is any JSON-like value. *)

Module JsValue.

Inductive number : Type :=
| NaN
| Num (q : Q).

Definition isInteger (n : number) : bool :=
  match n with
  | NaN => false
  | Num q => Qnum q mod Zpos (Qden q) =? 0
  end.

(** The integer a number is written as in an [Int] column: its value cut
    toward zero, so 1.5 is written 1; NaN has none. *)
Definition trunc (n : number) : option Z :=
  match n with
  | NaN => None
  | Num q => Some (Z.quot (Qnum q) (Zpos (Qden q)))
  end.

Definition ofInt (z : Z) : number := Num (inject_Z z).

#[local] Unset Elimination Schemes.
Inductive t : Type :=
| Undefined
| Null
| Bool (b : bool)
| Number (n : number)
| Str (s : string)
| Array (items : list t)
| Object (props : list (string * t)).
#[local] Set Elimination Schemes.

(** [v[key]]: [Undefined] when [v] is not an object or lacks the key. *)
Definition prop (key : string) (v : t) : t :=
  match v with
  | Object props =>
      match find (fun kv => String.eqb (fst kv) key) props with
      | Some kv => snd kv
      | None => Undefined
      end
  | _ => Undefined
  end.

End JsValue.

(** ** Schemas (zod)

    A schema turns a value into typed data or into the list of its issues;
    an object schema runs every field and gathers the issues of all. *)

Module Zod.

Import JsValue.

Inductive IssueCode : Type :=
| invalid_type
| too_small
| too_big.

Record Issue : Type := mkIssue { path : list string; issueCode : IssueCode }.

Inductive SafeParseResult (A : Type) : Type :=
| Success (data : A)
| Failure (issues : list Issue).

Arguments Success {A} data.
Arguments Failure {A} issues.

Definition success {A : Type} (r : SafeParseResult A) : bool :=
  match r with Success _ => true | Failure _ => false end.

Definition issuesOf {A : Type} (r : SafeParseResult A) : list Issue :=
  match r with Success _ => [] | Failure l => l end.

(** [z.string().min(lo).max(hi)] at [path]: both length checks run. *)
Definition zString (lo hi : nat) (p : list string) (v : t)
  : SafeParseResult string :=
  match v with
  | Str s =>
      let small := if (String.length s <? lo)%nat
                   then [mkIssue p too_small] else [] in
      let big := if (hi <? String.length s)%nat
                 then [mkIssue p too_big] else [] in
      match (small ++ big)%list with
      | [] => Success s
      | l => Failure l
      end
  | _ => Failure [mkIssue p invalid_type]
  end.

(** [z.number()] at [path]: any number but NaN. *)
Definition zNumber (p : list string) (v : t) : SafeParseResult number :=
  match v with
  | Number NaN => Failure [mkIssue p invalid_type]
  | Number n => Success n
  | _ => Failure [mkIssue p invalid_type]
  end.

(** [schema.optional()]: [undefined] is accepted as it is. *)
Definition zOptional {A : Type} (schema : list string -> t -> SafeParseResult A)
  (p : list string) (v : t) : SafeParseResult (option A) :=
  match v with
  | Undefined => Success None
  | _ => match schema p v with
         | Success a => Success (Some a)
         | Failure l => Failure l
         end
  end.

Definition isObject (v : t) : bool :=
  match v with Object _ => true | _ => false end.

Definition lengthWithin (lo hi : nat) (s : string) : Prop :=
  (lo <= String.length s <= hi)%nat.

End Zod.

(** ** Records and payloads *)

Record Category : Type := mkCategory {
  cat_id : Z;
  cat_title : string;
  cat_slug : string
}.

Record Question : Type := mkQuestion {
  q_id : Z;
  q_question : string;
  q_answer : string;
  q_slug : string;
  q_categoryId : Z
}.

Record CategoryToCreate : Type := mkCategoryToCreate { create_title : string }.

(** The title of a change set is read with [??] and tested for truthiness by
    updateCategory, so it is kept as a property that may be absent. *)
Record CategoryToUpdate : Type := mkCategoryToUpdate {
  update_title : option string
}.

Record QuestionToCreate : Type := mkQuestionToCreate {
  create_question : string;
  create_answer : string;
  create_categoryId : JsValue.number
}.

Record QuestionToUpdate : Type := mkQuestionToUpdate {
  update_question : option string;
  update_answer : option string;
  update_categoryId : option JsValue.number
}.

(** ** Validation (categories.db.ts, questions.db.ts) *)

Module Validation.

Import JsValue Zod.

Definition rootTypeIssue {A : Type} : SafeParseResult A :=
  Failure [mkIssue [] invalid_type].

(** [CategoryToCreateSchema]. *)
Definition validateCategoryForCreate (data : t)
  : SafeParseResult CategoryToCreate :=
  if isObject data then
    match zString 3 1024 ["title"] (prop "title" data) with
    | Success s => Success (mkCategoryToCreate s)
    | Failure l => Failure l
    end
  else rootTypeIssue.

(** [CategoryToUpdateSchema]: the same field, declared without
    [.optional()]. *)
Definition validateCategoryForUpdate (data : t)
  : SafeParseResult CategoryToUpdate :=
  if isObject data then
    match zString 3 1024 ["title"] (prop "title" data) with
    | Success s => Success (mkCategoryToUpdate (Some s))
    | Failure l => Failure l
    end
  else rootTypeIssue.

(** [QuestionToCreateSchema]. *)
Definition validateQuestionForCreate (data : t)
  : SafeParseResult QuestionToCreate :=
  if isObject data then
    let q := zString 3 1024 ["question"] (prop "question" data) in
    let a := zString 3 1024 ["answer"] (prop "answer" data) in
    let c := zNumber ["categoryId"] (prop "categoryId" data) in
    match q, a, c with
    | Success q', Success a', Success c' =>
        Success (mkQuestionToCreate q' a' c')
    | _, _, _ => Failure (issuesOf q ++ issuesOf a ++ issuesOf c)%list
    end
  else rootTypeIssue.

(** [QuestionToUpdateSchema]: every field [.optional()]. *)
Definition validateQuestionForUpdate (data : t)
  : SafeParseResult QuestionToUpdate :=
  if isObject data then
    let q := zOptional (zString 3 1024) ["question"] (prop "question" data) in
    let a := zOptional (zString 3 1024) ["answer"] (prop "answer" data) in
    let c := zOptional zNumber ["categoryId"] (prop "categoryId" data) in
    match q, a, c with
    | Success q', Success a', Success c' =>
        Success (mkQuestionToUpdate q' a' c')
    | _, _, _ => Failure (issuesOf q ++ issuesOf a ++ issuesOf c)%list
    end
  else rootTypeIssue.

End Validation.

(** ** The store (schema.prisma)

    Two tables, [Categories] with unique [title] and [slug], and [Questions]
    with unique [slug] and a restricting foreign key to [Categories.id].
    Every call of the client is a statement; it resolves with a value or is
    rejected, and the journal keeps the statements sent, latest first. *)

Module Prisma.

Import JsValue.

Inductive Error : Type :=
| UniqueConstraintFailed
| ForeignKeyConstraintFailed
| RecordNotFound
| InvalidArgument.

Record CategoryData : Type := mkCategoryData {
  data_title : string;
  data_catSlug : string
}.

Record QuestionData : Type := mkQuestionData {
  data_question : string;
  data_answer : string;
  data_categoryId : number;
  data_slug : string
}.

Inductive Statement : Type :=
| CategoriesFindUnique (whereSlug : string)
| CategoriesCreate (data : CategoryData)
| CategoriesUpdate (whereSlug : string) (data : CategoryData)
| CategoriesDelete (whereSlug : string)
| QuestionsFindUnique (whereId : Z)
| QuestionsFindMany (whereCategoryId : Z)
| QuestionsCreate (data : QuestionData)
| QuestionsUpdate (whereId : Z) (data : QuestionData)
| QuestionsDelete (whereId : Z).

Record Store : Type := mkStore {
  categories : list Category;
  questions : list Question;
  nextCategoryId : Z;
  nextQuestionId : Z;
  journal : list Statement
}.

Inductive Outcome (A : Type) : Type :=
| Resolved (a : A)
| Rejected (e : Error).

Arguments Resolved {A} a.
Arguments Rejected {A} e.

(** An awaited computation against the store. *)
Definition Client (A : Type) : Type := Store -> Outcome A * Store.

Definition ret {A : Type} (a : A) : Client A := fun st => (Resolved a, st).

Definition bind {A B : Type} (m : Client A) (k : A -> Client B) : Client B :=
  fun st =>
    match m st with
    | (Resolved a, st') => k a st'
    | (Rejected e, st') => (Rejected e, st')
    end.

Definition tryCatch {A : Type} (m : Client A) (handler : Error -> Client A)
  : Client A :=
  fun st =>
    match m st with
    | (Resolved a, st') => (Resolved a, st')
    | (Rejected e, st') => handler e st'
    end.

(** The outcome of [x <- m ;; ret (Some x)]. *)
Definition liftSome {A : Type} (r : Outcome A * Store)
  : Outcome (option A) * Store :=
  match r with
  | (Resolved a, st) => (Resolved (Some a), st)
  | (Rejected e, st) => (Rejected e, st)
  end.

Definition sent (s : Statement) (st : Store) : Store :=
  mkStore (categories st) (questions st) (nextCategoryId st)
    (nextQuestionId st) (s :: journal st).

Definition withCategories (cs : list Category) (st : Store) : Store :=
  mkStore cs (questions st) (nextCategoryId st) (nextQuestionId st)
    (journal st).

Definition withQuestions (qs : list Question) (st : Store) : Store :=
  mkStore (categories st) qs (nextCategoryId st) (nextQuestionId st)
    (journal st).

Definition drawCategoryId (st : Store) : Store :=
  mkStore (categories st) (questions st) (nextCategoryId st + 1)
    (nextQuestionId st) (journal st).

Definition drawQuestionId (st : Store) : Store :=
  mkStore (categories st) (questions st) (nextCategoryId st)
    (nextQuestionId st + 1) (journal st).

Definition hasSlug (slug : string) (c : Category) : bool :=
  String.eqb (cat_slug c) slug.

Definition hasId (id : Z) (q : Question) : bool := q_id q =? id.

(** The values of an [Int] column (INTEGER, 32 bits). *)
Definition inIntRange (z : Z) : bool :=
  (-2147483648 <=? z) && (z <=? 2147483647).

Definition inCategory (categoryId : Z) (q : Question) : bool :=
  q_categoryId q =? categoryId.

(** [orderBy: { id: 'asc' }]. *)
Fixpoint insertById (q : Question) (l : list Question) : list Question :=
  match l with
  | [] => [q]
  | h :: t => if q_id q <=? q_id h then q :: l else h :: insertById q t
  end.

Definition orderByIdAsc (l : list Question) : list Question :=
  fold_right insertById [] l.

(** *** Categories *)

Definition categoriesFindUnique (slug : string) : Client (option Category) :=
  fun st =>
    (Resolved (find (hasSlug slug) (categories st)),
     sent (CategoriesFindUnique slug) st).

Definition categoriesCreate (data : CategoryData) : Client Category :=
  fun st =>
    let st1 := drawCategoryId (sent (CategoriesCreate data) st) in
    if existsb (fun c => String.eqb (cat_title c) (data_title data)
                         || String.eqb (cat_slug c) (data_catSlug data))
         (categories st)
    then (Rejected UniqueConstraintFailed, st1)
    else
      let created :=
        mkCategory (nextCategoryId st) (data_title data) (data_catSlug data) in
      (Resolved created, withCategories (categories st ++ [created])%list st1).

Definition categoriesUpdate (slug : string) (data : CategoryData)
  : Client Category :=
  fun st =>
    let st1 := sent (CategoriesUpdate slug data) st in
    match find (hasSlug slug) (categories st) with
    | None => (Rejected RecordNotFound, st1)
    | Some existing =>
        if existsb
             (fun c => negb (hasSlug slug c)
                       && (String.eqb (cat_title c) (data_title data)
                           || String.eqb (cat_slug c) (data_catSlug data)))
             (categories st)
        then (Rejected UniqueConstraintFailed, st1)
        else
          let write c :=
            if hasSlug slug c
            then mkCategory (cat_id c) (data_title data) (data_catSlug data)
            else c in
          (Resolved (write existing),
           withCategories (map write (categories st)) st1)
    end.

Definition categoriesDelete (slug : string) : Client Category :=
  fun st =>
    let st1 := sent (CategoriesDelete slug) st in
    match find (hasSlug slug) (categories st) with
    | None => (Rejected RecordNotFound, st1)
    | Some existing =>
        if existsb (inCategory (cat_id existing)) (questions st)
        then (Rejected ForeignKeyConstraintFailed, st1)
        else
          (Resolved existing,
           withCategories
             (filter (fun c => negb (hasSlug slug c)) (categories st)) st1)
    end.

(** *** Questions *)

(** An id outside the range of the column names no row, and the client
    refuses it instead of answering null.  A stored row always has an id
    within the range, so it does not show that the rows are searched
    before the range is tested. *)
Definition questionsFindUnique (id : Z) : Client (option Question) :=
  fun st =>
    let st1 := sent (QuestionsFindUnique id) st in
    match find (hasId id) (questions st) with
    | Some q => (Resolved (Some q), st1)
    | None =>
        if inIntRange id then (Resolved None, st1)
        else (Rejected InvalidArgument, st1)
    end.

Definition questionsFindMany (categoryId : Z) : Client (list Question) :=
  fun st =>
    (Resolved (orderByIdAsc (filter (inCategory categoryId) (questions st))),
     sent (QuestionsFindMany categoryId) st).

Definition categoryExists (categoryId : Z) (st : Store) : bool :=
  existsb (fun c => cat_id c =? categoryId) (categories st).

(** [categoryId] is an [Int] column: the number handed over is written as
    its integer part (NaN is refused).  The id is drawn from the sequence
    of the table, used up even by a statement that fails afterwards, and
    must fit the 32 bits of the column. *)
Definition questionsCreate (data : QuestionData) : Client Question :=
  fun st =>
    let st0 := sent (QuestionsCreate data) st in
    match trunc (data_categoryId data) with
    | None => (Rejected InvalidArgument, st0)
    | Some categoryId =>
        let st1 := drawQuestionId st0 in
        if negb (inIntRange (nextQuestionId st))
        then (Rejected InvalidArgument, st1)
        else if existsb (fun q => String.eqb (q_slug q) (data_slug data))
                  (questions st)
        then (Rejected UniqueConstraintFailed, st1)
        else if negb (categoryExists categoryId st)
        then (Rejected ForeignKeyConstraintFailed, st1)
        else
          let created :=
            mkQuestion (nextQuestionId st) (data_question data)
              (data_answer data) (data_slug data) categoryId in
          (Resolved created, withQuestions (questions st ++ [created])%list st1)
    end.

(** As on creation, the [categoryId] is written as its integer part. *)
Definition questionsUpdate (id : Z) (data : QuestionData) : Client Question :=
  fun st =>
    let st1 := sent (QuestionsUpdate id data) st in
    match trunc (data_categoryId data) with
    | None => (Rejected InvalidArgument, st1)
    | Some categoryId =>
        match find (hasId id) (questions st) with
        | None => (Rejected RecordNotFound, st1)
        | Some existing =>
            if existsb (fun q => negb (hasId id q)
                                 && String.eqb (q_slug q) (data_slug data))
                 (questions st)
            then (Rejected UniqueConstraintFailed, st1)
            else if negb (categoryExists categoryId st)
            then (Rejected ForeignKeyConstraintFailed, st1)
            else
              let write q :=
                if hasId id q
                then mkQuestion (q_id q) (data_question data)
                       (data_answer data) (data_slug data) categoryId
                else q in
              (Resolved (write existing),
               withQuestions (map write (questions st)) st1)
        end
    end.

Definition questionsDelete (id : Z) : Client Question :=
  fun st =>
    let st1 := sent (QuestionsDelete id) st in
    match find (hasId id) (questions st) with
    | None => (Rejected RecordNotFound, st1)
    | Some existing =>
        (Resolved existing,
         withQuestions (filter (fun q => negb (hasId id q)) (questions st)) st1)
    end.

End Prisma.

Notation "x <- m ;; k" := (Prisma.bind m (fun x => k))
  (at level 61, m at next level, right associativity).

(** ** Category service (categories.db.ts) *)

Module CategoriesDb.

Import JsString Prisma.

Definition getCategoryBySlug (slug : string) : Client (option Category) :=
  categoriesFindUnique slug.

Definition createCategory (categoryToCreate : CategoryToCreate)
  : Client Category :=
  let slug := slugify (create_title categoryToCreate) in
  createdCategory <-
    categoriesCreate (mkCategoryData (create_title categoryToCreate) slug) ;;
  ret createdCategory.

Definition updateCategory (slug : string) (changes : CategoryToUpdate)
  : Client (option Category) :=
  existing <- categoriesFindUnique slug ;;
  match existing with
  | None => ret None
  | Some existing =>
      let newSlug :=
        match supplied (update_title changes) with
        | Some title => slugify title
        | None => cat_slug existing
        end in
      let title :=
        match update_title changes with
        | Some title => title
        | None => cat_title existing
        end in
      updated <- categoriesUpdate slug (mkCategoryData title newSlug) ;;
      ret (Some updated)
  end.

Definition deleteCategory (slug : string) : Client (option Category) :=
  existing <- categoriesFindUnique slug ;;
  match existing with
  | None => ret None
  | Some _ =>
      deleted <- categoriesDelete slug ;;
      ret (Some deleted)
  end.

End CategoriesDb.

(** ** Question service (questions.db.ts)

    The sanitizer [xss] comes from a package outside the repository; the
    service is embedded over any sanitizer. *)

Module QuestionsDb.

Import JsString JsValue Prisma.

Section Sanitizer.

Variable xss : string -> string.

Definition getQuestionById (id : Z) : Client (option Question) :=
  questionsFindUnique id.

Definition createQuestion (data : QuestionToCreate) : Client Question :=
  let safeQuestion := xss (create_question data) in
  let safeAnswer := xss (create_answer data) in
  let slug := slugify (create_question data) in
  created <-
    questionsCreate
      (mkQuestionData safeQuestion safeAnswer (create_categoryId data) slug) ;;
  ret created.

Definition deleteQuestion (id : Z) : Client (option Question) :=
  existing <- questionsFindUnique id ;;
  match existing with
  | None => ret None
  | Some _ =>
      deleted <- questionsDelete id ;;
      ret (Some deleted)
  end.

Definition updateQuestion (id : Z) (changes : QuestionToUpdate)
  : Client (option Question) :=
  existing <- questionsFindUnique id ;;
  match existing with
  | None => ret None
  | Some existing =>
      let safeQuestion :=
        match supplied (update_question changes) with
        | Some q => xss q
        | None => q_question existing
        end in
      let safeAnswer :=
        match supplied (update_answer changes) with
        | Some a => xss a
        | None => q_answer existing
        end in
      let newSlug :=
        match supplied (update_question changes) with
        | Some _ => slugify safeQuestion
        | None => q_slug existing
        end in
      let categoryId :=
        match update_categoryId changes with
        | Some c => c
        | None => ofInt (q_categoryId existing)
        end in
      updated <-
        questionsUpdate id
          (mkQuestionData safeQuestion safeAnswer categoryId newSlug) ;;
      ret (Some updated)
  end.

Definition getQuestionByCategorySlug (slug : string)
  : Client (option (list Question)) :=
  category <- categoriesFindUnique slug ;;
  match category with
  | None => ret None
  | Some category =>
      found <- questionsFindMany (cat_id category) ;;
      ret (Some found)
  end.

End Sanitizer.

(** A sanitizer to run the service with: both angle brackets are escaped,
    which is what the package's default filter does to markup outside its
    tag whitelist, script elements among it. *)
Fixpoint escapeTags (s : string) : string :=
  match s with
  | EmptyString => EmptyString
  | String c t =>
      if Ascii.eqb c "<" then "&lt;" ++ escapeTags t
      else if Ascii.eqb c ">" then "&gt;" ++ escapeTags t
      else String c (escapeTags t)
  end.

End QuestionsDb.

(** ** Routes on /questions/:id (index.ts) *)

Module Routes.

Import JsString Prisma QuestionsDb Validation.

Inductive Body : Type :=
| ErrorMessage (error : string)
| InvalidData (issues : list Zod.Issue)
| QuestionJson (question : Question)
| NoBody.

Record Response : Type := mkResponse { status : Z; body : Body }.

Definition invalidId : Response := mkResponse 400 (ErrorMessage "Invalid ID").
Definition invalidJson : Response :=
  mkResponse 400 (ErrorMessage "Invalid JSON").
Definition notFound : Response :=
  mkResponse 404 (ErrorMessage "Question not found").
Definition internalError : Response :=
  mkResponse 500 (ErrorMessage "Internal error").

Section Sanitizer.

Variable xss : string -> string.

(** [app.get('/questions/:id')]. *)
Definition getQuestionRoute (idParam : string) : Client Response :=
  match parseInt idParam with
  | None => ret invalidId
  | Some id =>
      tryCatch
        (question <- getQuestionById id ;;
         match question with
         | None => ret notFound
         | Some q => ret (mkResponse 200 (QuestionJson q))
         end)
        (fun _ => ret internalError)
  end.

(** [app.patch('/questions/:id')]; [json] is [None] when the request body
    does not parse. *)
Definition patchQuestionRoute (idParam : string) (json : option JsValue.t)
  : Client Response :=
  match parseInt idParam with
  | None => ret invalidId
  | Some id =>
      match json with
      | None => ret invalidJson
      | Some body =>
          match validateQuestionForUpdate body with
          | Zod.Failure issues => ret (mkResponse 400 (InvalidData issues))
          | Zod.Success data =>
              tryCatch
                (updated <- updateQuestion xss id data ;;
                 match updated with
                 | None => ret notFound
                 | Some q => ret (mkResponse 200 (QuestionJson q))
                 end)
                (fun _ => ret internalError)
          end
      end
  end.

(** [app.delete('/questions/:id')]. *)
Definition deleteQuestionRoute (idParam : string) : Client Response :=
  match parseInt idParam with
  | None => ret invalidId
  | Some id =>
      tryCatch
        (deleted <- deleteQuestion id ;;
         match deleted with
         | None => ret notFound
         | Some _ => ret (mkResponse 204 NoBody)
         end)
        (fun _ => ret internalError)
  end.

End Sanitizer.

End Routes.

(** ** The slug rule in the specification's words

    Lower-case the text, replace each run of white space with a single
    hyphen, strip every character that is neither a word character nor a
    hyphen.  [hyphenateRuns] reads the text once: the first white-space
    character of a run becomes the hyphen, the others of the run vanish. *)

Module SlugRule.

Import JsString.

Fixpoint hyphenateRuns (inRun : bool) (s : string) : string :=
  match s with
  | EmptyString => EmptyString
  | String c t =>
      if isWhiteSpace c
      then if inRun then hyphenateRuns true t
           else String "-" (hyphenateRuns true t)
      else String c (hyphenateRuns false t)
  end.

Fixpoint keepWordAndHyphen (s : string) : string :=
  match s with
  | EmptyString => EmptyString
  | String c t =>
      if isWordChar c || isHyphen c
      then String c (keepWordAndHyphen t)
      else keepWordAndHyphen t
  end.

Definition slugRule (s : string) : string :=
  keepWordAndHyphen (hyphenateRuns false (toLowerCase s)).

(** The characters a slug is made of: [a-z0-9_-]. *)
Definition isSlugChar (c : ascii) : bool :=
  inRange 97 122 c || inRange 48 57 c || (code c =? 95)%N || isHyphen c.

Definition notAsciiUpper (c : ascii) : bool := negb (inRange 65 90 c).

Fixpoint allChars (p : ascii -> bool) (s : string) : bool :=
  match s with
  | EmptyString => true
  | String c t => p c && allChars p t
  end.

End SlugRule.

(** ** Merged records

    The values a partial update is expected to write, field by field: the
    value of the change set where it has one, the existing value where it
    has none, and for the slug the slug of the new text or the existing
    slug. *)

Module Expected.

Import JsString JsValue Prisma.

Definition mergedTitle (changes : CategoryToUpdate) (existing : Category)
  : string :=
  match update_title changes with
  | Some title => title
  | None => cat_title existing
  end.

Definition mergedSlug (changes : CategoryToUpdate) (existing : Category)
  : string :=
  match supplied (update_title changes) with
  | Some title => slugify title
  | None => cat_slug existing
  end.

Definition mergedData (xss : string -> string) (changes : QuestionToUpdate)
  (existing : Question) : QuestionData :=
  mkQuestionData
    (match update_question changes with
     | Some q => xss q
     | None => q_question existing
     end)
    (match update_answer changes with
     | Some a => xss a
     | None => q_answer existing
     end)
    (match update_categoryId changes with
     | Some c => c
     | None => ofInt (q_categoryId existing)
     end)
    (match update_question changes with
     | Some q => slugify (xss q)
     | None => q_slug existing
     end).

(** Ascending order of id. *)
Definition ascendingIds : list Question -> Prop :=
  StronglySorted (fun a b => q_id a <= q_id b).

End Expected.

(** ** Sample data

    The categories and questions the repository's tests run against, and a
    few payloads. *)

Module Fixtures.

Import JsValue Prisma.

Definition html : Category := mkCategory 1 "HTML" "html".
Definition css : Category := mkCategory 2 "CSS" "css".
Definition js : Category := mkCategory 3 "JavaScript" "js".

Definition question1 : Question :=
  mkQuestion 1 "Test Question 1" "Test Answer 1" "test-question-1" 1.
Definition question2 : Question :=
  mkQuestion 2 "Test Question 2" "Test Answer 2" "test-question-2" 2.

Definition seeded : Store :=
  mkStore [html; css; js] [question1; question2] 4 3 [].

(** The same categories with three questions on HTML stored out of order. *)
Definition question5 : Question :=
  mkQuestion 5 "What is a tag?" "A named element" "what-is-a-tag" 1.
Definition question9 : Question :=
  mkQuestion 9 "What is a form?" "An input group" "what-is-a-form" 1.

Definition shuffled : Store :=
  mkStore [html; css; js] [question9; question2; question5; question1] 4 10 [].

Definition halfwayPayload : t :=
  Object [("question", Str "What is CSS?");
          ("answer", Str "A styling language");
          ("categoryId", Number (Num (3 # 2)))].

Definition scriptQuestion : QuestionToCreate :=
  mkQuestionToCreate "<script>alert(1)</script>" "A script element"
    (ofInt 1).

Definition answerOnly : t := Object [("answer", Str "Updated test answer")].

End Fixtures.

(** ** Listings and the in-memory table (categories.db.ts, questions.db.ts)

    [limit] and [offset] are counts.  The journal of the store records the
    keyed statements; the two listings below read the rows and are not
    entered in it. *)

Module Listing.

Import JsValue Zod Validation Prisma.

Fixpoint insertCategoryById (c : Category) (l : list Category)
  : list Category :=
  match l with
  | [] => [c]
  | h :: t =>
      if cat_id c <=? cat_id h then c :: l else h :: insertCategoryById c t
  end.

Definition orderCategoriesByIdAsc (l : list Category) : list Category :=
  fold_right insertCategoryById [] l.

(** [prisma.categories.findMany({ skip, take, orderBy: { id: 'asc' } })]. *)
Definition categoriesFindMany (skip take : nat) : Client (list Category) :=
  fun st =>
    (Resolved
       (firstn take (skipn skip (orderCategoriesByIdAsc (categories st)))),
     st).

(** [prisma.questions.findMany({ orderBy: { id: 'asc' } })]. *)
Definition questionsFindAll : Client (list Question) :=
  fun st => (Resolved (orderByIdAsc (questions st)), st).

Definition getCategories (limit offset : nat) : Client (list Category) :=
  categories <- categoriesFindMany offset limit ;;
  ret categories.

(** [getCategories()], with the default page. *)
Definition getCategoriesDefault : Client (list Category) :=
  getCategories 10 0.

Definition getQuestions : Client (list Question) := questionsFindAll.

Definition mockCategories : list Category :=
  [mkCategory 1 "HTML" "html";
   mkCategory 2 "CSS" "css";
   mkCategory 3 "JavaScript" "js"].

(** [mockCategories.find((c) => c.slug === slug) ?? null]. *)
Definition getCategory (slug : string) : option Category :=
  find (fun c => String.eqb (cat_slug c) slug) mockCategories.

(** [validateCategory]: a second entry to [CategoryToCreateSchema]. *)
Definition validateCategory (categoryToValidate : t)
  : SafeParseResult CategoryToCreate :=
  if isObject categoryToValidate then
    match zString 3 1024 ["title"] (prop "title" categoryToValidate) with
    | Success s => Success (mkCategoryToCreate s)
    | Failure l => Failure l
    end
  else rootTypeIssue.

End Listing.

(** ** The other routes (index.ts) *)

Module Api.

Import JsString Prisma CategoriesDb QuestionsDb Validation Listing.

Inductive Json : Type :=
| Hello
| ErrorJson (error : string)
| MessageJson (message : string)
| InvalidCategory (errors : list Zod.Issue)
| InvalidQuestion (issues : list Zod.Issue)
| CategoryJson (category : Category)
| CategoriesJson (categories : list Category)
| QuestionBody (question : Question)
| QuestionsJson (questions : list Question)
| Empty.

Record Reply : Type := mkReply { code : Z; json : Json }.

Definition internal : Reply := mkReply 500 (ErrorJson "Internal error").

(** [app.get('/')]. *)
Definition root : Reply := mkReply 200 Hello.

(** [app.get('/categories')]. *)
Definition getCategoriesRoute : Client Reply :=
  tryCatch
    (categories <- getCategoriesDefault ;;
     ret (mkReply 200 (CategoriesJson categories)))
    (fun _ => ret internal).

(** [app.get('/categories/:slug')]. *)
Definition getCategoryRoute (slug : string) : Client Reply :=
  tryCatch
    (category <- getCategoryBySlug slug ;;
     match category with
     | None => ret (mkReply 404 (MessageJson "Category not found"))
     | Some c => ret (mkReply 200 (CategoryJson c))
     end)
    (fun _ => ret internal).

(** [app.post('/categories')]; [body] is [None] when the request body does
    not parse. *)
Definition postCategoryRoute (body : option JsValue.t) : Client Reply :=
  match body with
  | None => ret (mkReply 400 (ErrorJson "invalid json"))
  | Some categoryToCreate =>
      match validateCategoryForCreate categoryToCreate with
      | Zod.Failure errors => ret (mkReply 400 (InvalidCategory errors))
      | Zod.Success data =>
          tryCatch
            (created <- createCategory data ;;
             ret (mkReply 201 (CategoryJson created)))
            (fun _ => ret internal)
      end
  end.

(** [app.patch('/categories/:slug')]. *)
Definition patchCategoryRoute (slug : string) (body : option JsValue.t)
  : Client Reply :=
  match body with
  | None => ret (mkReply 400 (ErrorJson "invalid json"))
  | Some categoryToUpdate =>
      match validateCategoryForUpdate categoryToUpdate with
      | Zod.Failure errors => ret (mkReply 400 (InvalidCategory errors))
      | Zod.Success data =>
          tryCatch
            (updated <- updateCategory slug data ;;
             match updated with
             | None => ret (mkReply 404 (MessageJson "Category not found"))
             | Some c => ret (mkReply 200 (CategoryJson c))
             end)
            (fun _ => ret internal)
      end
  end.

(** [app.delete('/categories/:slug')]. *)
Definition deleteCategoryRoute (slug : string) : Client Reply :=
  tryCatch
    (deleted <- deleteCategory slug ;;
     match deleted with
     | None => ret (mkReply 404 (ErrorJson "Category not found"))
     | Some _ => ret (mkReply 204 Empty)
     end)
    (fun _ => ret internal).

(** [app.get('/questions')]. *)
Definition getQuestionsRoute : Client Reply :=
  tryCatch
    (questions <- getQuestions ;;
     ret (mkReply 200 (QuestionsJson questions)))
    (fun _ => ret internal).

(** [app.get('/categories/:slug/questions')]. *)
Definition getCategoryQuestionsRoute (slug : string) : Client Reply :=
  tryCatch
    (questions <- getQuestionByCategorySlug slug ;;
     match questions with
     | None => ret (mkReply 404 (ErrorJson "Category not found"))
     | Some l => ret (mkReply 200 (QuestionsJson l))
     end)
    (fun _ => ret internal).

Section Sanitizer.

Variable xss : string -> string.

(** [app.post('/questions')]. *)
Definition postQuestionRoute (body : option JsValue.t) : Client Reply :=
  match body with
  | None => ret (mkReply 400 (ErrorJson "Invalid JSON"))
  | Some payload =>
      match validateQuestionForCreate payload with
      | Zod.Failure issues => ret (mkReply 400 (InvalidQuestion issues))
      | Zod.Success data =>
          tryCatch
            (created <- createQuestion xss data ;;
             ret (mkReply 201 (QuestionBody created)))
            (fun _ => ret internal)
      end
  end.

End Sanitizer.

End Api.

(** ** The constraints of the schema, as a predicate on stores

    Primary keys and unique columns hold no value twice, every question
    refers to a category that is there, and the two sequences are ahead of
    the ids handed out. *)

Module Integrity.

Import Prisma.

Record WellFormed (st : Store) : Prop := mkWellFormed {
  wf_categoryIds : NoDup (map cat_id (categories st));
  wf_categorySlugs : NoDup (map cat_slug (categories st));
  wf_categoryTitles : NoDup (map cat_title (categories st));
  wf_questionIds : NoDup (map q_id (questions st));
  wf_questionSlugs : NoDup (map q_slug (questions st));
  wf_foreignKey :
    forall q, In q (questions st) -> categoryExists (q_categoryId q) st = true;
  wf_categorySequence :
    forall c, In c (categories st) -> cat_id c < nextCategoryId st;
  wf_questionSequence :
    forall q, In q (questions st) -> q_id q < nextQuestionId st
}.

(** Every category stored with the slug of its title. *)
Definition CanonicalSlugs (st : Store) : Prop :=
  forall c, In c (categories st) ->
            cat_slug c = JsString.slugify (cat_title c).

(** A category that has the title or the slug. *)
Definition clashes (title slug : string) (c : Category) : bool :=
  String.eqb (cat_title c) title || String.eqb (cat_slug c) slug.

(** A computation that takes well-formed stores to well-formed stores,
    whatever its outcome. *)
Definition Preserves {A : Type} (m : Client A) : Prop :=
  forall st, WellFormed st -> WellFormed (snd (m st)).

(** A computation that always resolves: it never ends in a rejection. *)
Definition Answers {A : Type} (m : Client A) : Prop :=
  forall st, exists a st', m st = (Resolved a, st').

Definition emptyStore : Store := mkStore [] [] 1 1 [].

(** Two categories stored with the slugs of their titles, no question. *)
Definition tidy : Store :=
  mkStore [mkCategory 1 "HTML" "html"; mkCategory 2 "CSS" "css"] [] 3 1 [].

Definition ascendingCategoryIds : list Category -> Prop :=
  StronglySorted (fun a b => cat_id a <= cat_id b).

(** Every stored question has an id that the column can hold. *)
Definition IdsInRange (st : Store) : Prop :=
  forall q, In q (questions st) -> inIntRange (q_id q) = true.


End Integrity.

(* ===================================================================== *)
(** * Part II: properties *)
(* ===================================================================== *)

(** ** Slugs *)

Module SlugFacts.

Import JsString SlugRule.

Lemma replaceAllPlus_cons (cls : ascii -> bool) (rep : string) (c : ascii)
  (t : string) :
  replaceAllPlus cls rep (String c t) =
  if cls c then rep ++ replaceAllPlus cls rep (skipClass cls t)
  else String c (replaceAllPlus cls rep t).
Proof.
  simp replaceAllPlus. destruct (cls c); reflexivity.
Qed.

Lemma hyphenateRuns_replaceAllPlus (s : string) :
  hyphenateRuns false s = replaceAllPlus isWhiteSpace "-" s /\
  hyphenateRuns true s =
  replaceAllPlus isWhiteSpace "-" (skipClass isWhiteSpace s).
Proof.
  induction s as [|c t [IHout IHin]].
  - split; reflexivity.
  - split; simpl.
    + rewrite replaceAllPlus_cons.
      destruct (isWhiteSpace c); simpl; congruence.
    + destruct (isWhiteSpace c) eqn:Hc; [exact IHin|].
      rewrite replaceAllPlus_cons, Hc. congruence.
Qed.

Lemma keepWordAndHyphen_skip (s : string) :
  keepWordAndHyphen (skipClass isNotWordOrHyphen s) = keepWordAndHyphen s.
Proof.
  induction s as [|c t IH]; [reflexivity|].
  simpl. unfold isNotWordOrHyphen at 1.
  destruct (isWordChar c || isHyphen c) eqn:Hc; simpl.
  - rewrite Hc. reflexivity.
  - exact IH.
Qed.

Lemma keepWordAndHyphen_replaceAllPlus (s : string) :
  replaceAllPlus isNotWordOrHyphen "" s = keepWordAndHyphen s.
Proof.
  remember (String.length s) as n eqn:Hn.
  revert s Hn.
  induction n as [n IH] using lt_wf_ind. intros s Hn.
  destruct s as [|c t]; [reflexivity|].
  rewrite replaceAllPlus_cons. simpl.
  unfold isNotWordOrHyphen at 1.
  destruct (isWordChar c || isHyphen c); simpl.
  - f_equal. apply (IH (String.length t)); [subst; simpl; lia | reflexivity].
  - rewrite <- keepWordAndHyphen_skip.
    apply (IH (String.length (skipClass isNotWordOrHyphen t))); [|reflexivity].
    pose proof (skipClass_length isNotWordOrHyphen t). subst; simpl; lia.
Qed.

Lemma slugify_slugRule (s : string) : slugify s = slugRule s.
Proof.
  unfold slugify, slugRule.
  rewrite keepWordAndHyphen_replaceAllPlus.
  f_equal. symmetry. apply hyphenateRuns_replaceAllPlus.
Qed.

Lemma lowerChar_notAsciiUpper (c : ascii) : notAsciiUpper (lowerChar c) = true.
Proof.
  destruct c as [[] [] [] [] [] [] [] []]; reflexivity.
Qed.

Lemma toLowerCase_lowered (s : string) :
  allChars notAsciiUpper (toLowerCase s) = true.
Proof.
  induction s as [|c t IH]; simpl; [reflexivity|].
  rewrite lowerChar_notAsciiUpper. exact IH.
Qed.

Lemma hyphenateRuns_lowered (s : string) :
  allChars notAsciiUpper s = true ->
  forall inRun, allChars notAsciiUpper (hyphenateRuns inRun s) = true.
Proof.
  induction s as [|c t IH]; simpl; intros H inRun; [reflexivity|].
  apply andb_prop in H. destruct H as [Hc Ht].
  destruct (isWhiteSpace c).
  - destruct inRun; [auto|].
    change (notAsciiUpper "-" && allChars notAsciiUpper (hyphenateRuns true t)
            = true).
    rewrite (IH Ht true). reflexivity.
  - simpl. rewrite Hc. exact (IH Ht false).
Qed.

Lemma slugChar_of_kept (c : ascii) :
  notAsciiUpper c = true -> isWordChar c || isHyphen c = true ->
  isSlugChar c = true.
Proof.
  unfold notAsciiUpper, isWordChar, isSlugChar.
  destruct (inRange 97 122 c), (inRange 65 90 c), (inRange 48 57 c),
    (code c =? 95)%N, (isHyphen c); simpl; congruence.
Qed.

Lemma keepWordAndHyphen_slugChars (s : string) :
  allChars notAsciiUpper s = true ->
  allChars isSlugChar (keepWordAndHyphen s) = true.
Proof.
  induction s as [|c t IH]; simpl; intros H; [reflexivity|].
  apply andb_prop in H. destruct H as [Hc Ht].
  destruct (isWordChar c || isHyphen c) eqn:Hk; simpl; auto.
  rewrite (slugChar_of_kept c Hc Hk). auto.
Qed.

(** A text without white space is left alone by the hyphenation, and one run
    between two texts becomes exactly one hyphen. *)
Lemma hyphenateRuns_no_space (s : string) :
  allChars (fun c => negb (isWhiteSpace c)) s = true ->
  forall inRun, hyphenateRuns inRun s = s.
Proof.
  induction s as [|c t IH]; simpl; intros H inRun; [reflexivity|].
  apply andb_prop in H. destruct H as [Hc Ht].
  apply negb_true_iff in Hc. rewrite Hc. f_equal. auto.
Qed.

Lemma hyphenateRuns_run (a : string) (w : ascii) (ws : string) (b : ascii)
  (rest : string) :
  allChars (fun c => negb (isWhiteSpace c)) a = true ->
  isWhiteSpace w = true -> allChars isWhiteSpace ws = true ->
  isWhiteSpace b = false ->
  hyphenateRuns false (a ++ String w ws ++ String b rest) =
  a ++ "-" ++ String b (hyphenateRuns false rest).
Proof.
  intros Ha Hw Hws Hb.
  induction a as [|c t IH]; simpl.
  - rewrite Hw. f_equal.
    induction ws as [|d u IHu]; simpl.
    + rewrite Hb. reflexivity.
    + simpl in Hws. apply andb_prop in Hws. destruct Hws as [Hd Hu].
      rewrite Hd. auto.
  - simpl in Ha. apply andb_prop in Ha. destruct Ha as [Hc Ht].
    apply negb_true_iff in Hc. rewrite Hc. f_equal. auto.
Qed.

(** C1, amended: the slug expression of the services is the slug rule of the
    specification (lower-case, one hyphen for each run of white space, only
    word characters and hyphens kept), every slug is made of the characters
    a-z, 0-9, underscore and hyphen, and the rule does not trim: a run of
    white space at either end of the text is a run like any other, so
    "What is HTML?" gives "what-is-html" and "  Multiple   Spaces  " gives
    "-multiple-spaces-". *)
Theorem slugify_spec :
  (forall s : string,
      slugify s = keepWordAndHyphen (hyphenateRuns false (toLowerCase s)) /\
      allChars isSlugChar (slugify s) = true) /\
  slugify "What is HTML?" = "what-is-html" /\
  slugify "  Multiple   Spaces  " = "-multiple-spaces-".
Proof.
  split; [|split; reflexivity].
  intros s. split.
  - apply slugify_slugRule.
  - rewrite slugify_slugRule. unfold slugRule.
    apply keepWordAndHyphen_slugChars, hyphenateRuns_lowered,
      toLowerCase_lowered.
Qed.

(** C1 as stated fails on its second example: the surrounding white space is
    not dropped, it becomes a hyphen at each end. *)
Lemma slugify_multiple_spaces_counterexample :
  slugify "  Multiple   Spaces  " <> "multiple-spaces".
Proof.
  vm_compute. discriminate.
Qed.

End SlugFacts.

(** ** Validation *)

Module ValidationFacts.

Import JsValue Zod Validation Fixtures.

Lemma zString_success (lo hi : nat) (p : list string) (v : t) (s : string) :
  zString lo hi p v = Success s <-> v = Str s /\ lengthWithin lo hi s.
Proof.
  unfold zString, lengthWithin. split.
  - destruct v; try discriminate.
    destruct (String.length s0 <? lo)%nat eqn:Hlo;
      destruct (hi <? String.length s0)%nat eqn:Hhi; simpl; try discriminate.
    intros H. injection H as ->.
    apply Nat.ltb_ge in Hlo. apply Nat.ltb_ge in Hhi. auto.
  - intros [-> [Hlo Hhi]].
    apply Nat.ltb_ge in Hlo. apply Nat.ltb_ge in Hhi.
    rewrite Hlo, Hhi. reflexivity.
Qed.

Lemma zNumber_success (p : list string) (v : t) (n : number) :
  zNumber p v = Success n <-> v = Number n /\ n <> NaN.
Proof.
  unfold zNumber. split.
  - destruct v; try discriminate. destruct n0; try discriminate.
    intros H. injection H as <-. split; [reflexivity | discriminate].
  - intros [-> Hn]. destruct n; [contradiction | reflexivity].
Qed.

Lemma zOptional_success {A : Type}
  (schema : list string -> t -> SafeParseResult A) (p : list string) (v : t)
  (o : option A) :
  zOptional schema p v = Success o <->
  (v = Undefined /\ o = None) \/
  (v <> Undefined /\ exists a, schema p v = Success a /\ o = Some a).
Proof.
  unfold zOptional. split.
  - destruct v; [intros H; injection H as <-; auto | ..];
      (destruct (schema p _) eqn:Hs; [|discriminate];
       intros H; injection H as <-; right; split; [discriminate|]; eauto).
  - intros [[-> ->] | [Hv [a [Hs ->]]]]; [reflexivity|].
    destruct v; [contradiction | ..]; rewrite Hs; reflexivity.
Qed.

(** A missing property reads as [undefined], which the string schema
    rejects as being of the wrong type. *)
Lemma zString_undefined (lo hi : nat) (p : list string) :
  zString lo hi p Undefined = Failure [mkIssue p invalid_type].
Proof. reflexivity. Qed.

(** An object that omits the title is rejected with an invalid-type issue
    on [title]. *)
Lemma validateCategoryForUpdate_requires_title (props : list (string * t)) :
  prop "title" (Object props) = Undefined ->
  validateCategoryForUpdate (Object props) =
  Failure [mkIssue ["title"] invalid_type].
Proof.
  intros H. unfold validateCategoryForUpdate.
  cbn [isObject]. rewrite H. reflexivity.
Qed.

(** C3: the update schema declares [title] without [.optional()]; the empty
    object, which omits the title, is rejected with an invalid-type issue on
    [title], and so is an object that only has other properties. *)
Theorem validateCategoryForUpdate_missing_title :
  validateCategoryForUpdate (Object []) =
  Failure [mkIssue ["title"] invalid_type] /\
  validateCategoryForUpdate (Object [("name", Str "Updated Category")]) =
  Failure [mkIssue ["title"] invalid_type].
Proof.
  split; apply validateCategoryForUpdate_requires_title; reflexivity.
Qed.

(** What the update schema accepts: objects whose title is a string of 3 to
    1024 code units, and nothing else. *)
Lemma validateCategoryForUpdate_success (v : t) (d : CategoryToUpdate) :
  validateCategoryForUpdate v = Success d <->
  isObject v = true /\
  exists s, prop "title" v = Str s /\ lengthWithin 3 1024 s /\
            d = mkCategoryToUpdate (Some s).
Proof.
  unfold validateCategoryForUpdate. split.
  - destruct (isObject v); [|discriminate].
    destruct (zString 3 1024 ["title"] (prop "title" v)) eqn:Hs;
      [|discriminate].
    intros H. injection H as <-. apply zString_success in Hs.
    destruct Hs as [Hv Hl]. split; [reflexivity|]. eauto.
  - intros [-> [s [Hv [Hl ->]]]].
    assert (Hs : zString 3 1024 ["title"] (prop "title" v) = Success s)
      by (apply zString_success; auto).
    rewrite Hs. reflexivity.
Qed.

(** C4, amended: validateQuestionForCreate succeeds exactly on the objects
    whose question and answer are strings of 3 to 1024 code units and whose
    categoryId is a number other than NaN, integral or not; the data it
    returns are those three properties. *)
Theorem validateQuestionForCreate_success (v : t) (d : QuestionToCreate) :
  validateQuestionForCreate v = Success d <->
  isObject v = true /\
  exists q a n,
    prop "question" v = Str q /\ lengthWithin 3 1024 q /\
    prop "answer" v = Str a /\ lengthWithin 3 1024 a /\
    prop "categoryId" v = Number n /\ n <> NaN /\
    d = mkQuestionToCreate q a n.
Proof.
  unfold validateQuestionForCreate. split.
  - destruct (isObject v); [|discriminate].
    destruct (zString 3 1024 ["question"] (prop "question" v)) eqn:Hq;
      [|discriminate].
    destruct (zString 3 1024 ["answer"] (prop "answer" v)) eqn:Ha;
      [|discriminate].
    destruct (zNumber ["categoryId"] (prop "categoryId" v)) eqn:Hc;
      [|discriminate].
    intros H. injection H as <-.
    apply zString_success in Hq, Ha. apply zNumber_success in Hc.
    destruct Hq as [Hq Hql], Ha as [Ha Hal], Hc as [Hc Hcn].
    split; [reflexivity|].
    exists data, data0, data1. auto 10.
  - intros [-> [q [a [n [Hq [Hql [Ha [Hal [Hc [Hn ->]]]]]]]]]].
    assert (Eq : zString 3 1024 ["question"] (prop "question" v) = Success q)
      by (apply zString_success; auto).
    assert (Ea : zString 3 1024 ["answer"] (prop "answer" v) = Success a)
      by (apply zString_success; auto).
    assert (Ec : zNumber ["categoryId"] (prop "categoryId" v) = Success n)
      by (apply zNumber_success; auto).
    rewrite Eq, Ea, Ec. reflexivity.
Qed.

(** C4 as stated fails: a payload whose categoryId is 1.5 is accepted. *)
Lemma validateQuestionForCreate_fraction_counterexample :
  isInteger (Num (3 # 2)) = false /\
  validateQuestionForCreate halfwayPayload =
  Success (mkQuestionToCreate "What is CSS?" "A styling language"
             (Num (3 # 2))).
Proof.
  split; reflexivity.
Qed.

End ValidationFacts.

(** ** The store *)

Module StoreFacts.

Import Prisma Expected.

Lemma insertById_perm (q : Question) (l : list Question) :
  Permutation (q :: l) (insertById q l).
Proof.
  induction l as [|h t IH]; simpl; [apply Permutation_refl|].
  destruct (q_id q <=? q_id h); [apply Permutation_refl|].
  eapply perm_trans; [apply perm_swap|]. apply perm_skip, IH.
Qed.

Lemma orderByIdAsc_perm (l : list Question) : Permutation (orderByIdAsc l) l.
Proof.
  induction l as [|q t IH]; simpl; [constructor|].
  eapply perm_trans; [apply Permutation_sym, insertById_perm|].
  apply perm_skip, IH.
Qed.

Lemma insertById_sorted (q : Question) (l : list Question) :
  ascendingIds l -> ascendingIds (insertById q l).
Proof.
  unfold ascendingIds.
  induction l as [|h t IH]; simpl; intros Hs.
  - constructor; constructor.
  - apply StronglySorted_inv in Hs. destruct Hs as [Ht Hh].
    destruct (q_id q <=? q_id h) eqn:Hle.
    + apply Z.leb_le in Hle. constructor.
      * constructor; assumption.
      * constructor; [assumption|].
        eapply Forall_impl; [|exact Hh]. intros a Ha. simpl in Ha. lia.
    + apply Z.leb_gt in Hle. constructor; [auto|].
      eapply Permutation_Forall; [apply insertById_perm|].
      constructor; [lia | assumption].
Qed.

Lemma orderByIdAsc_sorted (l : list Question) : ascendingIds (orderByIdAsc l).
Proof.
  induction l as [|q t IH]; simpl; [constructor|].
  apply insertById_sorted, IH.
Qed.

Lemma find_hasSlug (slug : string) (l : list Category) (c : Category) :
  find (hasSlug slug) l = Some c -> In c l /\ cat_slug c = slug.
Proof.
  intros H. apply find_some in H. destruct H as [Hin Hs].
  split; [assumption|]. apply String.eqb_eq, Hs.
Qed.

Lemma find_hasSlug_none (slug : string) (l : list Category) :
  find (hasSlug slug) l = None ->
  forall c, In c l -> cat_slug c <> slug.
Proof.
  intros H c Hin Hs.
  pose proof (find_none _ _ H c Hin) as Hc.
  unfold hasSlug in Hc. rewrite Hs, String.eqb_refl in Hc. discriminate.
Qed.

Lemma find_hasId (id : Z) (l : list Question) (q : Question) :
  find (hasId id) l = Some q -> In q l /\ q_id q = id.
Proof.
  intros H. apply find_some in H. destruct H as [Hin Hs].
  split; [assumption|]. apply Z.eqb_eq, Hs.
Qed.

Lemma find_hasId_none (id : Z) (l : list Question) :
  find (hasId id) l = None -> forall q, In q l -> q_id q <> id.
Proof.
  intros H q Hin Hs.
  pose proof (find_none _ _ H q Hin) as Hq.
  unfold hasId in Hq. rewrite Hs, Z.eqb_refl in Hq. discriminate.
Qed.

(** Nothing with the looked-up key is left once the rows with that key are
    filtered out. *)
Lemma find_after_filter {A : Type} (p : A -> bool) (l : list A) :
  find p (filter (fun x => negb (p x)) l) = None.
Proof.
  induction l as [|x t IH]; simpl; [reflexivity|].
  destruct (p x) eqn:Hp; simpl; [exact IH|].
  rewrite Hp. exact IH.
Qed.

End StoreFacts.

(** ** Category service *)

Module CategoryFacts.

Import JsString JsValue Zod Validation Prisma CategoriesDb.
Import Expected StoreFacts Fixtures.

Lemma truthy_lengthWithin (lo hi : nat) (s : string) :
  (0 < lo)%nat -> lengthWithin lo hi s -> supplied (Some s) = Some s.
Proof.
  unfold lengthWithin. intros Hlo [Hs _].
  destruct s; simpl in *; [lia | reflexivity].
Qed.

(** What the update statement does when the store takes it. *)
Lemma categoriesUpdate_resolved (slug : string) (data : CategoryData)
  (st st' : Store) (updated : Category) :
  categoriesUpdate slug data st = (Resolved updated, st') ->
  exists existing,
    find (hasSlug slug) (categories st) = Some existing /\
    updated = mkCategory (cat_id existing) (data_title data)
                (data_catSlug data) /\
    In updated (categories st') /\
    questions st' = questions st.
Proof.
  unfold categoriesUpdate.
  destruct (find (hasSlug slug) (categories st)) as [existing|] eqn:Hf;
    [|discriminate].
  destruct (existsb _ (categories st)); [discriminate|].
  intros H. injection H as Hu Hst.
  destruct (find_hasSlug _ _ _ Hf) as [Hin Hs].
  assert (Hhas : hasSlug slug existing = true)
    by (unfold hasSlug; rewrite Hs; apply String.eqb_refl).
  rewrite Hhas in Hu.
  exists existing. split; [reflexivity|]. split; [auto|].
  subst st'. simpl. split; [|reflexivity].
  apply in_map_iff. exists existing. rewrite Hhas. auto.
Qed.

Lemma categoriesUpdate_journal (slug : string) (data : CategoryData)
  (st : Store) :
  journal (snd (categoriesUpdate slug data st)) =
  CategoriesUpdate slug data :: journal st.
Proof.
  unfold categoriesUpdate.
  destruct (find (hasSlug slug) (categories st)); [|reflexivity].
  destruct (existsb _ (categories st)); reflexivity.
Qed.

Lemma updateCategory_absent (slug : string) (changes : CategoryToUpdate)
  (st : Store) :
  find (hasSlug slug) (categories st) = None ->
  updateCategory slug changes st =
  (Resolved None, sent (CategoriesFindUnique slug) st).
Proof.
  intros H. unfold updateCategory, bind, categoriesFindUnique.
  rewrite H. reflexivity.
Qed.

Lemma updateCategory_found (slug : string) (changes : CategoryToUpdate)
  (st : Store) (existing : Category) :
  find (hasSlug slug) (categories st) = Some existing ->
  updateCategory slug changes st =
  liftSome
    (categoriesUpdate slug
       (mkCategoryData (mergedTitle changes existing)
          (mergedSlug changes existing))
       (sent (CategoriesFindUnique slug) st)).
Proof.
  intros H. unfold updateCategory, bind, categoriesFindUnique.
  rewrite H. fold (mergedTitle changes existing).
  fold (mergedSlug changes existing).
  destruct (categoriesUpdate _ _ _) as [[u|e] st']; reflexivity.
Qed.

Lemma liftSome_resolved {A : Type} (r : Outcome A * Store) (a : A)
  (st' : Store) :
  liftSome r = (Resolved (Some a), st') -> r = (Resolved a, st').
Proof.
  destruct r as [[x|e] s]; simpl; intros H; [|discriminate].
  injection H as -> ->. reflexivity.
Qed.

Lemma liftSome_journal {A : Type} (r : Outcome A * Store) :
  journal (snd (liftSome r)) = journal (snd r).
Proof. destruct r as [[x|e] s]; reflexivity. Qed.

(** Resending the title a category already has changes nothing when the
    stored slug is the slug of that title. *)
Lemma mergedSlug_same_title (existing : Category) :
  cat_slug existing = slugify (cat_title existing) ->
  mergedSlug (mkCategoryToUpdate (Some (cat_title existing))) existing =
  cat_slug existing.
Proof.
  intros H. unfold mergedSlug. cbn [update_title supplied].
  destruct (truthy (cat_title existing)); auto.
Qed.

(** The store takes the update whenever no other category has the new
    title or the new slug. *)
Lemma updateCategory_accepts (slug : string) (changes : CategoryToUpdate)
  (st : Store) (existing : Category) :
  find (hasSlug slug) (categories st) = Some existing ->
  existsb
    (fun c => negb (hasSlug slug c)
              && (String.eqb (cat_title c) (mergedTitle changes existing)
                  || String.eqb (cat_slug c) (mergedSlug changes existing)))
    (categories st) = false ->
  exists st',
    updateCategory slug changes st =
    (Resolved (Some (mkCategory (cat_id existing)
                       (mergedTitle changes existing)
                       (mergedSlug changes existing))), st') /\
    In (mkCategory (cat_id existing) (mergedTitle changes existing)
          (mergedSlug changes existing)) (categories st').
Proof.
  intros Hf Hfree. rewrite (updateCategory_found _ _ _ _ Hf).
  destruct (categoriesUpdate slug
              (mkCategoryData (mergedTitle changes existing)
                 (mergedSlug changes existing))
              (sent (CategoriesFindUnique slug) st))
    as [[updated|e] st'] eqn:Hu.
  - exists st'. pose proof Hu as Hu'.
    apply categoriesUpdate_resolved in Hu.
    destruct Hu as [ex [Hex [-> [Hin _]]]].
    cbn [categories sent] in Hex. rewrite Hf in Hex. injection Hex as <-.
    cbn [data_title data_catSlug] in *. split; [reflexivity | exact Hin].
  - unfold categoriesUpdate in Hu. cbn [categories sent] in Hu.
    cbn [data_title data_catSlug] in Hu. rewrite Hf, Hfree in Hu.
    discriminate.
Qed.

(** C5, amended: updateCategory looks the category up by the current slug.
    When no category has it, the call resolves with null after that one
    lookup.  When one has, the update statement is keyed by the original
    slug and carries title = changes.title ?? existing.title together with
    a slug that is recomputed from the supplied title whenever the change
    set supplies a non-empty title, whether or not that title differs from
    the existing one, and that is the existing slug otherwise; the record
    persisted and returned has the existing id and these values, and the
    store takes the statement whenever no other category has that title or
    that slug. *)
Theorem updateCategory_spec (st : Store) (slug : string)
  (changes : CategoryToUpdate) :
  (find (hasSlug slug) (categories st) = None ->
   updateCategory slug changes st =
   (Resolved None, sent (CategoriesFindUnique slug) st)) /\
  (forall existing,
      find (hasSlug slug) (categories st) = Some existing ->
      let title :=
        match update_title changes with
        | Some title => title
        | None => cat_title existing
        end in
      let newSlug :=
        match update_title changes with
        | Some title =>
            if truthy title then slugify title else cat_slug existing
        | None => cat_slug existing
        end in
      journal (snd (updateCategory slug changes st)) =
      CategoriesUpdate slug (mkCategoryData title newSlug)
      :: CategoriesFindUnique slug :: journal st /\
      (forall updated st',
          updateCategory slug changes st = (Resolved (Some updated), st') ->
          updated = mkCategory (cat_id existing) title newSlug /\
          In updated (categories st')) /\
      (existsb
         (fun c => negb (hasSlug slug c)
                   && (String.eqb (cat_title c) title
                       || String.eqb (cat_slug c) newSlug))
         (categories st) = false ->
       exists st',
         updateCategory slug changes st =
         (Resolved (Some (mkCategory (cat_id existing) title newSlug)),
          st') /\
         In (mkCategory (cat_id existing) title newSlug) (categories st'))).
Proof.
  split; [apply updateCategory_absent|].
  intros existing Hf title newSlug.
  assert (Ht : title = mergedTitle changes existing) by reflexivity.
  assert (Hs : newSlug = mergedSlug changes existing).
  { unfold newSlug, mergedSlug, supplied.
    destruct (update_title changes) as [t|]; [|reflexivity].
    destruct (truthy t); reflexivity. }
  rewrite Ht, Hs. clear Ht Hs title newSlug.
  split; [|split].
  - rewrite (updateCategory_found _ _ _ _ Hf).
    rewrite liftSome_journal, categoriesUpdate_journal. reflexivity.
  - rewrite (updateCategory_found _ _ _ _ Hf).
    intros updated st' H. apply liftSome_resolved in H.
    apply categoriesUpdate_resolved in H.
    destruct H as [ex [Hex [Hu [Hin _]]]].
    simpl in Hex. rewrite Hf in Hex. injection Hex as <-.
    simpl in Hu. auto.
  - apply updateCategory_accepts. exact Hf.
Qed.

Lemma updateCategory_spec_witness :
  find (hasSlug "html") (categories seeded) = Some html /\
  (exists st',
      updateCategory "html" (mkCategoryToUpdate (Some "Updated HTML"))
        seeded =
      (Resolved (Some (mkCategory 1 "Updated HTML" "updated-html")), st') /\
      In (mkCategory 1 "Updated HTML" "updated-html") (categories st')) /\
  updateCategory "react" (mkCategoryToUpdate (Some "Updated HTML")) seeded =
  (Resolved None, sent (CategoriesFindUnique "react") seeded).
Proof.
  split; [reflexivity|]. split.
  - destruct (updateCategory_spec seeded "html"
                (mkCategoryToUpdate (Some "Updated HTML"))) as [_ H].
    destruct (H html eq_refl) as [_ [_ H']]. apply H'. reflexivity.
  - destruct (updateCategory_spec seeded "react"
                (mkCategoryToUpdate (Some "Updated HTML"))) as [H _].
    apply H. reflexivity.
Defined.

(** C5 as stated fails: sending the JavaScript category its own title again
    leaves the title as it was, yet the stored slug "js" is replaced by the
    slug of the title. *)
Lemma updateCategory_same_title_counterexample :
  find (hasSlug "js") (categories seeded) = Some js /\
  mergedTitle (mkCategoryToUpdate (Some "JavaScript")) js = cat_title js /\
  fst (updateCategory "js" (mkCategoryToUpdate (Some "JavaScript")) seeded) =
  Resolved (Some (mkCategory 3 "JavaScript" "javascript")) /\
  "javascript" <> cat_slug js.
Proof.
  repeat split; try reflexivity. discriminate.
Qed.



Lemma createCategory_unfold (data : CategoryToCreate) (st : Store) :
  createCategory data st =
  categoriesCreate
    (mkCategoryData (create_title data) (slugify (create_title data))) st.
Proof.
  unfold createCategory, bind, ret.
  destruct (categoriesCreate _ st) as [[c|e] st']; reflexivity.
Qed.

(** The store takes a new category whenever neither its title nor its slug
    is in use. *)
Lemma createCategory_resolves (data : CategoryToCreate) (st : Store) :
  existsb (fun c => String.eqb (cat_title c) (create_title data)
                    || String.eqb (cat_slug c) (slugify (create_title data)))
    (categories st) = false ->
  exists st',
    createCategory data st =
    (Resolved (mkCategory (nextCategoryId st) (create_title data)
                 (slugify (create_title data))), st').
Proof.
  intros H. rewrite createCategory_unfold. unfold categoriesCreate.
  cbn [data_title data_catSlug]. rewrite H. eauto.
Qed.



End CategoryFacts.

(** ** Question service *)

Module QuestionFacts.

Import JsString JsValue Zod Validation Prisma CategoriesDb QuestionsDb.
Import Expected ValidationFacts StoreFacts CategoryFacts Fixtures.

Lemma trunc_ofInt (z : Z) : trunc (ofInt z) = Some z.
Proof.
  unfold trunc, ofInt, inject_Z. cbn [Qnum Qden].
  rewrite Z.quot_1_r. reflexivity.
Qed.

(** *** Listing the questions of a category *)

Lemma getQuestionByCategorySlug_absent (slug : string) (st : Store) :
  find (hasSlug slug) (categories st) = None ->
  getQuestionByCategorySlug slug st =
  (Resolved None, sent (CategoriesFindUnique slug) st).
Proof.
  intros H. unfold getQuestionByCategorySlug, bind, categoriesFindUnique.
  rewrite H. reflexivity.
Qed.

Lemma getQuestionByCategorySlug_found (slug : string) (st : Store)
  (category : Category) :
  find (hasSlug slug) (categories st) = Some category ->
  getQuestionByCategorySlug slug st =
  (Resolved
     (Some (orderByIdAsc
              (filter (inCategory (cat_id category)) (questions st)))),
   sent (QuestionsFindMany (cat_id category))
     (sent (CategoriesFindUnique slug) st)).
Proof.
  intros H. unfold getQuestionByCategorySlug, bind, categoriesFindUnique.
  rewrite H. reflexivity.
Qed.

(** C7: a slug that matches no category gives null; a slug that matches a
    category gives a list, which holds exactly the questions of that
    category, in ascending order of id, and which is empty when the
    category has no question. *)
Theorem getQuestionByCategorySlug_spec (st : Store) (slug : string) :
  (find (hasSlug slug) (categories st) = None ->
   fst (getQuestionByCategorySlug slug st) = Resolved None) /\
  (forall category,
      find (hasSlug slug) (categories st) = Some category ->
      exists found,
        fst (getQuestionByCategorySlug slug st) = Resolved (Some found) /\
        Permutation found
          (filter (inCategory (cat_id category)) (questions st)) /\
        ascendingIds found /\
        (forall q, In q found <->
                   In q (questions st) /\ q_categoryId q = cat_id category) /\
        ((forall q, In q (questions st) ->
                    q_categoryId q <> cat_id category) ->
         found = [])).
Proof.
  split.
  - intros H. rewrite (getQuestionByCategorySlug_absent _ _ H). reflexivity.
  - intros category H. rewrite (getQuestionByCategorySlug_found _ _ _ H).
    eexists. split; [reflexivity|].
    pose proof (orderByIdAsc_perm
                  (filter (inCategory (cat_id category)) (questions st)))
      as Hperm.
    split; [exact Hperm|]. split; [apply orderByIdAsc_sorted|]. split.
    + intros q. split.
      * intros Hq. apply (Permutation_in _ Hperm) in Hq.
        apply filter_In in Hq. destruct Hq as [Hin Hc].
        split; [exact Hin|]. apply Z.eqb_eq, Hc.
      * intros [Hin Hc]. apply (Permutation_in _ (Permutation_sym Hperm)).
        apply filter_In. split; [exact Hin|]. apply Z.eqb_eq, Hc.
    + intros Hnone.
      assert (Hf : filter (inCategory (cat_id category)) (questions st) = []).
      { destruct (filter _ (questions st)) as [|q l] eqn:Hfl; [reflexivity|].
        assert (Hq : In q (filter (inCategory (cat_id category))
                             (questions st)))
          by (rewrite Hfl; left; reflexivity).
        apply filter_In in Hq. destruct Hq as [Hin Hc].
        apply Z.eqb_eq in Hc. elim (Hnone q Hin Hc). }
      rewrite Hf. reflexivity.
Qed.

Lemma getQuestionByCategorySlug_spec_witness :
  fst (getQuestionByCategorySlug "nonexistent" shuffled) = Resolved None /\
  (exists found,
      fst (getQuestionByCategorySlug "js" shuffled) = Resolved (Some found) /\
      found = []) /\
  fst (getQuestionByCategorySlug "html" shuffled) =
  Resolved (Some [question1; question5; question9]).
Proof.
  split; [|split; [|reflexivity]].
  - apply (getQuestionByCategorySlug_spec shuffled "nonexistent").
    reflexivity.
  - destruct (getQuestionByCategorySlug_spec shuffled "js") as [_ H].
    destruct (H js eq_refl) as [found [Hf [_ [_ [_ Hempty]]]]].
    exists found. split; [exact Hf|]. apply Hempty.
    intros q Hq. simpl in Hq.
    destruct Hq as [<-|[<-|[<-|[<-|[]]]]]; discriminate.
Defined.

(** *** Deleting *)

Lemma deleteCategory_absent (slug : string) (st : Store) :
  find (hasSlug slug) (categories st) = None ->
  deleteCategory slug st =
  (Resolved None, sent (CategoriesFindUnique slug) st).
Proof.
  intros H. unfold deleteCategory, bind, categoriesFindUnique.
  rewrite H. reflexivity.
Qed.

Lemma deleteCategory_found (slug : string) (st : Store)
  (existing : Category) :
  find (hasSlug slug) (categories st) = Some existing ->
  deleteCategory slug st =
  liftSome (categoriesDelete slug (sent (CategoriesFindUnique slug) st)).
Proof.
  intros H. unfold deleteCategory, bind, categoriesFindUnique.
  rewrite H.
  destruct (categoriesDelete _ _) as [[u|e] st']; reflexivity.
Qed.

Lemma deleteQuestion_absent (id : Z) (st : Store) :
  find (hasId id) (questions st) = None ->
  deleteQuestion id st =
  (if inIntRange id then Resolved None else Rejected InvalidArgument,
   sent (QuestionsFindUnique id) st).
Proof.
  intros H. unfold deleteQuestion, bind, questionsFindUnique.
  rewrite H. destruct (inIntRange id); reflexivity.
Qed.

Lemma deleteQuestion_found (id : Z) (st : Store) (existing : Question) :
  find (hasId id) (questions st) = Some existing ->
  deleteQuestion id st =
  (Resolved (Some existing),
   withQuestions (filter (fun q => negb (hasId id q)) (questions st))
     (sent (QuestionsDelete id) (sent (QuestionsFindUnique id) st))).
Proof.
  intros H. unfold deleteQuestion, bind, questionsFindUnique, questionsDelete.
  rewrite H. cbn [questions sent]. rewrite H. reflexivity.
Qed.

(** C8, amended: both deletions look the record up first.  With no matching
    record, a slug, or an id within the 32-bit range of the id column,
    resolves with null and every row stays; an id outside that range is
    refused by the store, so the call fails, and every row stays as well.
    An existing question is deleted and returned, and so is an existing
    category that no question refers to: the record returned is the one
    found, it is no longer found afterwards, and the other table is
    untouched.  An existing category that some question still refers to is
    not deleted: the store rejects the statement for its foreign key and
    every row stays. *)
Theorem delete_spec (st : Store) :
  (forall slug,
      find (hasSlug slug) (categories st) = None ->
      fst (deleteCategory slug st) = Resolved None /\
      categories (snd (deleteCategory slug st)) = categories st /\
      questions (snd (deleteCategory slug st)) = questions st) /\
  (forall slug existing,
      find (hasSlug slug) (categories st) = Some existing ->
      existsb (inCategory (cat_id existing)) (questions st) = false ->
      fst (deleteCategory slug st) = Resolved (Some existing) /\
      categories (snd (deleteCategory slug st)) =
      filter (fun c => negb (hasSlug slug c)) (categories st) /\
      find (hasSlug slug) (categories (snd (deleteCategory slug st))) = None /\
      questions (snd (deleteCategory slug st)) = questions st) /\
  (forall slug existing,
      find (hasSlug slug) (categories st) = Some existing ->
      existsb (inCategory (cat_id existing)) (questions st) = true ->
      fst (deleteCategory slug st) = Rejected ForeignKeyConstraintFailed /\
      categories (snd (deleteCategory slug st)) = categories st /\
      questions (snd (deleteCategory slug st)) = questions st) /\
  (forall id,
      find (hasId id) (questions st) = None ->
      inIntRange id = true ->
      fst (deleteQuestion id st) = Resolved None /\
      categories (snd (deleteQuestion id st)) = categories st /\
      questions (snd (deleteQuestion id st)) = questions st) /\
  (forall id,
      find (hasId id) (questions st) = None ->
      inIntRange id = false ->
      fst (deleteQuestion id st) = Rejected InvalidArgument /\
      categories (snd (deleteQuestion id st)) = categories st /\
      questions (snd (deleteQuestion id st)) = questions st) /\
  (forall id existing,
      find (hasId id) (questions st) = Some existing ->
      fst (deleteQuestion id st) = Resolved (Some existing) /\
      questions (snd (deleteQuestion id st)) =
      filter (fun q => negb (hasId id q)) (questions st) /\
      find (hasId id) (questions (snd (deleteQuestion id st))) = None /\
      categories (snd (deleteQuestion id st)) = categories st).
Proof.
  split; [|split; [|split; [|split; [|split]]]].
  - intros slug Hf. rewrite (deleteCategory_absent _ _ Hf).
    repeat split.
  - intros slug existing Hf Hfree.
    rewrite (deleteCategory_found _ _ _ Hf). unfold categoriesDelete.
    cbn [categories questions sent]. rewrite Hf, Hfree.
    cbn [liftSome fst snd categories questions withCategories].
    repeat split. apply (find_after_filter (hasSlug slug)).
  - intros slug existing Hf Hheld.
    rewrite (deleteCategory_found _ _ _ Hf). unfold categoriesDelete.
    cbn [categories questions sent]. rewrite Hf, Hheld.
    repeat split.
  - intros id Hf Hr. rewrite (deleteQuestion_absent _ _ Hf), Hr.
    repeat split.
  - intros id Hf Hr. rewrite (deleteQuestion_absent _ _ Hf), Hr.
    repeat split.
  - intros id existing Hf. rewrite (deleteQuestion_found _ _ _ Hf).
    cbn [fst snd categories questions withQuestions sent].
    repeat split. apply (find_after_filter (hasId id)).
Qed.

Lemma delete_spec_witness :
  (fst (deleteCategory "js" seeded) = Resolved (Some js) /\
   categories (snd (deleteCategory "js" seeded)) = [html; css]) /\
  (fst (deleteCategory "html" seeded) = Rejected ForeignKeyConstraintFailed /\
   categories (snd (deleteCategory "html" seeded)) = [html; css; js]) /\
  (fst (deleteQuestion 999 seeded) = Resolved None /\
   questions (snd (deleteQuestion 999 seeded)) = [question1; question2]) /\
  (fst (deleteQuestion 2147483648 seeded) = Rejected InvalidArgument /\
   questions (snd (deleteQuestion 2147483648 seeded)) =
   [question1; question2]) /\
  (fst (deleteQuestion 1 seeded) = Resolved (Some question1) /\
   questions (snd (deleteQuestion 1 seeded)) = [question2]).
Proof.
  destruct (delete_spec seeded)
    as [_ [Hfree [Hheld [Hnone [Hrange Hsome]]]]].
  split; [|split; [|split; [|split]]].
  - destruct (Hfree "js" js eq_refl eq_refl) as [H1 [H2 _]].
    split; [exact H1 | exact H2].
  - destruct (Hheld "html" html eq_refl eq_refl) as [H1 [H2 _]].
    split; [exact H1 | exact H2].
  - destruct (Hnone 999 eq_refl eq_refl) as [H1 [_ H3]].
    split; [exact H1 | exact H3].
  - destruct (Hrange 2147483648 eq_refl eq_refl) as [H1 [_ H3]].
    split; [exact H1 | exact H3].
  - destruct (Hsome 1 question1 eq_refl) as [H1 [H2 _]].
    split; [exact H1 | exact H2].
Defined.

(** C8 as stated fails twice.  The HTML category exists, yet deleteCategory
    neither deletes nor returns it, because a question still refers to it.
    And no question has the id 2147483648, yet deleteQuestion does not
    resolve with null: the id is outside the range of the id column and the
    lookup is refused. *)
Lemma delete_counterexample :
  (find (hasSlug "html") (categories seeded) = Some html /\
   fst (deleteCategory "html" seeded) <> Resolved (Some html) /\
   In html (categories (snd (deleteCategory "html" seeded)))) /\
  (find (hasId 2147483648) (questions seeded) = None /\
   fst (deleteQuestion 2147483648 seeded) <> Resolved None).
Proof.
  split.
  - split; [reflexivity|]. split; [discriminate|]. left. reflexivity.
  - split; [reflexivity | discriminate].
Qed.

(** *** Creating *)

Lemma questionsCreate_resolved (data : QuestionData) (st st' : Store)
  (created : Question) :
  questionsCreate data st = (Resolved created, st') ->
  exists categoryId,
    trunc (data_categoryId data) = Some categoryId /\
    created = mkQuestion (nextQuestionId st) (data_question data)
                (data_answer data) (data_slug data) categoryId /\
    questions st' = (questions st ++ [created])%list /\
    categories st' = categories st.
Proof.
  unfold questionsCreate.
  destruct (trunc (data_categoryId data)) as [categoryId|]; [|discriminate].
  destruct (negb (inIntRange (nextQuestionId st))); [discriminate|].
  destruct (existsb _ (questions st)); [discriminate|].
  destruct (negb (categoryExists categoryId st)); [discriminate|].
  intros H. injection H as <- <-. eauto.
Qed.

Lemma createQuestion_unfold (xss : string -> string)
  (data : QuestionToCreate) (st : Store) :
  createQuestion xss data st =
  questionsCreate
    (mkQuestionData (xss (create_question data)) (xss (create_answer data))
       (create_categoryId data) (slugify (create_question data))) st.
Proof.
  unfold createQuestion, bind, ret.
  destruct (questionsCreate _ st) as [[q|e] st']; reflexivity.
Qed.

(** Whatever the sanitizer, a created question stores the sanitized texts
    and the slug of the question text as it came in. *)
Lemma createQuestion_resolved (xss : string -> string)
  (data : QuestionToCreate) (st st' : Store) (created : Question) :
  createQuestion xss data st = (Resolved created, st') ->
  q_question created = xss (create_question data) /\
  q_answer created = xss (create_answer data) /\
  q_slug created = slugify (create_question data) /\
  trunc (create_categoryId data) = Some (q_categoryId created) /\
  In created (questions st').
Proof.
  rewrite createQuestion_unfold. intros H.
  apply questionsCreate_resolved in H.
  destruct H as [categoryId [Hc [-> [Hq _]]]].
  rewrite Hq. repeat split; [exact Hc|].
  apply in_or_app. right. left. reflexivity.
Qed.

(** C2: on a question that holds a script element, createQuestion stores the
    escaped text, and a slug that is the slug of the text before it was
    sanitized, not of the text it stores. *)
Theorem createQuestion_slug_of_unsanitized_text :
  fst (createQuestion escapeTags scriptQuestion seeded) =
  Resolved (mkQuestion 3 "&lt;script&gt;alert(1)&lt;/script&gt;"
              "A script element" "scriptalert1script" 1) /\
  slugify (create_question scriptQuestion) = "scriptalert1script" /\
  slugify (escapeTags (create_question scriptQuestion)) =
  "ltscriptgtalert1ltscriptgt".
Proof.
  repeat split; reflexivity.
Qed.

(** *** Updating *)

Lemma zOptional_zString_supplied (p : list string) (v : t)
  (o : option string) :
  zOptional (zString 3 1024) p v = Success o -> supplied o = o.
Proof.
  intros H. apply zOptional_success in H.
  destruct H as [[_ ->] | [_ [s [Hs ->]]]]; [reflexivity|].
  apply zString_success in Hs. destruct Hs as [_ Hl].
  apply (truthy_lengthWithin 3 1024); [lia | exact Hl].
Qed.

Lemma validateQuestionForUpdate_supplied (input : t)
  (changes : QuestionToUpdate) :
  validateQuestionForUpdate input = Success changes ->
  supplied (update_question changes) = update_question changes /\
  supplied (update_answer changes) = update_answer changes.
Proof.
  unfold validateQuestionForUpdate.
  destruct (isObject input); [|discriminate].
  destruct (zOptional (zString 3 1024) ["question"] _) eqn:Hq; [|discriminate].
  destruct (zOptional (zString 3 1024) ["answer"] _) eqn:Ha; [|discriminate].
  destruct (zOptional zNumber ["categoryId"] _) eqn:Hc; [|discriminate].
  intros H. injection H as <-. cbn [update_question update_answer].
  split; eapply zOptional_zString_supplied; eassumption.
Qed.

Lemma questionsUpdate_resolved (id : Z) (data : QuestionData)
  (st st' : Store) (updated : Question) :
  questionsUpdate id data st = (Resolved updated, st') ->
  exists existing categoryId,
    find (hasId id) (questions st) = Some existing /\
    trunc (data_categoryId data) = Some categoryId /\
    updated = mkQuestion (q_id existing) (data_question data)
                (data_answer data) (data_slug data) categoryId /\
    In updated (questions st') /\
    (forall q, In q (questions st) -> q_id q <> id -> In q (questions st')) /\
    categories st' = categories st.
Proof.
  unfold questionsUpdate.
  destruct (trunc (data_categoryId data)) as [categoryId|]; [|discriminate].
  destruct (find (hasId id) (questions st)) as [existing|] eqn:Hf;
    [|discriminate].
  destruct (existsb _ (questions st)); [discriminate|].
  destruct (negb (categoryExists categoryId st)); [discriminate|].
  intros H. injection H as Hu Hst.
  destruct (find_hasId _ _ _ Hf) as [Hin Hid].
  assert (Hhas : hasId id existing = true)
    by (unfold hasId; rewrite Hid; apply Z.eqb_refl).
  rewrite Hhas in Hu.
  exists existing, categoryId. repeat split; auto; subst st'; simpl.
  - apply in_map_iff. exists existing. rewrite Hhas. auto.
  - intros q Hq Hne. apply in_map_iff. exists q. split; [|exact Hq].
    unfold hasId. apply Z.eqb_neq in Hne. rewrite Hne. reflexivity.
  - reflexivity.
Qed.

Lemma questionsUpdate_journal (id : Z) (data : QuestionData) (st : Store) :
  journal (snd (questionsUpdate id data st)) =
  QuestionsUpdate id data :: journal st.
Proof.
  unfold questionsUpdate.
  destruct (trunc (data_categoryId data)); [|reflexivity].
  destruct (find (hasId id) (questions st)); [|reflexivity].
  destruct (existsb _ (questions st)); [reflexivity|].
  destruct (negb (categoryExists _ st)); reflexivity.
Qed.

Lemma updateQuestion_absent (xss : string -> string) (id : Z)
  (changes : QuestionToUpdate) (st : Store) :
  find (hasId id) (questions st) = None ->
  updateQuestion xss id changes st =
  (if inIntRange id then Resolved None else Rejected InvalidArgument,
   sent (QuestionsFindUnique id) st).
Proof.
  intros H. unfold updateQuestion, bind, questionsFindUnique.
  rewrite H. destruct (inIntRange id); reflexivity.
Qed.

Lemma updateQuestion_found (xss : string -> string) (id : Z)
  (changes : QuestionToUpdate) (st : Store) (existing : Question) :
  supplied (update_question changes) = update_question changes ->
  supplied (update_answer changes) = update_answer changes ->
  find (hasId id) (questions st) = Some existing ->
  updateQuestion xss id changes st =
  liftSome
    (questionsUpdate id (mergedData xss changes existing)
       (sent (QuestionsFindUnique id) st)).
Proof.
  intros Hq Ha H. unfold updateQuestion, bind, questionsFindUnique.
  rewrite H, Hq, Ha.
  replace (mkQuestionData _ _ _ _) with (mergedData xss changes existing)
    by (unfold mergedData; destruct (update_question changes); reflexivity).
  destruct (questionsUpdate _ _ _) as [[u|e] st']; reflexivity.
Qed.

Lemma questionsUpdate_accepts (id : Z) (data : QuestionData) (st : Store)
  (existing : Question) (categoryId : Z) :
  find (hasId id) (questions st) = Some existing ->
  trunc (data_categoryId data) = Some categoryId ->
  existsb (fun q => negb (hasId id q)
                    && String.eqb (q_slug q) (data_slug data))
    (questions st) = false ->
  categoryExists categoryId st = true ->
  exists st',
    questionsUpdate id data st =
    (Resolved (mkQuestion (q_id existing) (data_question data)
                 (data_answer data) (data_slug data) categoryId), st').
Proof.
  intros Hf Hc Hfree Hcat. unfold questionsUpdate.
  rewrite Hc, Hf, Hfree, Hcat. cbn [negb].
  destruct (find_hasId _ _ _ Hf) as [_ Hid].
  assert (Hhas : hasId id existing = true)
    by (unfold hasId; rewrite Hid; apply Z.eqb_refl).
  rewrite Hhas. eauto.
Qed.

(** C6: for a validated change set and an existing question, the update
    statement carries the existing question, answer, slug and categoryId
    wherever the change set leaves the field out, the sanitized text
    wherever it supplies question or answer, and the slug of the sanitized
    new question exactly when the question is supplied; when the store
    takes the statement, the record persisted and returned has the existing
    id and these values, so a change set without question keeps the slug
    and one without categoryId keeps the category, a supplied categoryId
    being written as its integer part, and the other questions and the
    categories stay as they were; and the store takes the statement whenever
    no other question has the slug and the category is there. *)
Theorem updateQuestion_merge (xss : string -> string) (st : Store) (id : Z)
  (input : t) (changes : QuestionToUpdate) (existing : Question) :
  validateQuestionForUpdate input = Success changes ->
  find (hasId id) (questions st) = Some existing ->
  journal (snd (updateQuestion xss id changes st)) =
  QuestionsUpdate id (mergedData xss changes existing)
  :: QuestionsFindUnique id :: journal st /\
  (forall updated st',
      updateQuestion xss id changes st = (Resolved (Some updated), st') ->
      q_id updated = q_id existing /\
      q_question updated =
      match update_question changes with
      | Some q => xss q
      | None => q_question existing
      end /\
      q_answer updated =
      match update_answer changes with
      | Some a => xss a
      | None => q_answer existing
      end /\
      q_slug updated =
      match update_question changes with
      | Some q => slugify (xss q)
      | None => q_slug existing
      end /\
      match update_categoryId changes with
      | Some c => trunc c = Some (q_categoryId updated)
      | None => q_categoryId updated = q_categoryId existing
      end /\
      In updated (questions st') /\
      (forall q, In q (questions st) -> q_id q <> id ->
                 In q (questions st')) /\
      categories st' = categories st) /\
  (forall categoryId,
      trunc (data_categoryId (mergedData xss changes existing)) =
      Some categoryId ->
      categoryExists categoryId st = true ->
      existsb (fun q => negb (hasId id q)
                        && String.eqb (q_slug q)
                             (data_slug (mergedData xss changes existing)))
        (questions st) = false ->
      exists updated st',
        updateQuestion xss id changes st = (Resolved (Some updated), st')).
Proof.
  intros Hv Hf.
  destruct (validateQuestionForUpdate_supplied _ _ Hv) as [Hq Ha].
  rewrite (updateQuestion_found xss _ _ _ _ Hq Ha Hf).
  split; [|split].
  - rewrite liftSome_journal, questionsUpdate_journal. reflexivity.
  - intros updated st' H.
    apply liftSome_resolved, questionsUpdate_resolved in H.
    destruct H as [ex [categoryId [Hex [Hc [-> [Hin [Hrest Hcat]]]]]]].
    cbn [questions sent] in Hex. rewrite Hf in Hex. injection Hex as <-.
    cbn [q_id q_question q_answer q_slug q_categoryId mergedData
         data_question data_answer data_slug data_categoryId] in *.
    repeat split; auto.
    destruct (update_categoryId changes) as [c|]; [exact Hc|].
    rewrite trunc_ofInt in Hc. injection Hc as <-. reflexivity.
  - intros categoryId Hc Hcat Hfree.
    destruct (questionsUpdate_accepts id (mergedData xss changes existing)
                (sent (QuestionsFindUnique id) st) existing categoryId
                Hf Hc Hfree Hcat) as [st' Hu].
    rewrite Hu. simpl. eauto.
Qed.

Lemma updateQuestion_merge_witness :
  (fst (updateQuestion escapeTags 1
          (mkQuestionToUpdate None (Some "Updated test answer") None)
          seeded) =
   Resolved (Some (mkQuestion 1 "Test Question 1" "Updated test answer"
                     "test-question-1" 1)) /\
   q_slug (mkQuestion 1 "Test Question 1" "Updated test answer"
             "test-question-1" 1) = q_slug question1) /\
  (fst (updateQuestion escapeTags 1
          (mkQuestionToUpdate None None (Some (Num (5 # 2)))) seeded) =
   Resolved (Some (mkQuestion 1 "Test Question 1" "Test Answer 1"
                     "test-question-1" 2)) /\
   trunc (Num (5 # 2)) = Some 2).
Proof.
  split.
  - split; [reflexivity|].
    destruct (updateQuestion_merge escapeTags seeded 1 answerOnly
                (mkQuestionToUpdate None (Some "Updated test answer") None)
                question1 eq_refl eq_refl) as [_ [H _]].
    destruct (H (mkQuestion 1 "Test Question 1" "Updated test answer"
                   "test-question-1" 1)
                (snd (updateQuestion escapeTags 1
                        (mkQuestionToUpdate None
                           (Some "Updated test answer") None) seeded))
                eq_refl)
      as [_ [_ [_ [Hslug _]]]].
    exact Hslug.
  - split; [reflexivity|].
    destruct (updateQuestion_merge escapeTags seeded 1
                (Object [("categoryId", Number (Num (5 # 2)))])
                (mkQuestionToUpdate None None (Some (Num (5 # 2))))
                question1 eq_refl eq_refl) as [_ [H _]].
    destruct (H (mkQuestion 1 "Test Question 1" "Test Answer 1"
                   "test-question-1" 2)
                (snd (updateQuestion escapeTags 1
                        (mkQuestionToUpdate None None
                           (Some (Num (5 # 2)))) seeded))
                eq_refl)
      as [_ [_ [_ [_ [Hc _]]]]].
    exact Hc.
Defined.

End QuestionFacts.

(** ** Routes on /questions/:id *)

Module RouteFacts.

Import JsString JsValue Zod Validation Prisma QuestionsDb Routes.
Import Expected StoreFacts CategoryFacts QuestionFacts Fixtures.

Lemma readDigits_started (s : string) (a : Z) :
  exists n, readDigits (Some a) s = Some n.
Proof.
  revert a. induction s as [|c t IH]; intros a; simpl; [eauto|].
  destruct (isDigit c); [apply IH | eauto].
Qed.

Lemma readDigits_none (s : string) :
  readDigits None s = None <-> startsWithDigit s = false.
Proof.
  destruct s as [|c t]; cbn [readDigits startsWithDigit]; [tauto|].
  destruct (isDigit c); [|tauto].
  destruct (readDigits_started t (10 * 0 + digitValue c)) as [n Hn].
  rewrite Hn. split; discriminate.
Qed.

(** When parseInt gives NaN: after the leading white space and one sign, the
    text does not start with a decimal digit. *)
Lemma parseInt_none (s : string) :
  parseInt s = None <->
  startsWithDigit (dropSign (skipClass isWhiteSpace s)) = false.
Proof.
  unfold parseInt, dropSign.
  destruct (skipClass isWhiteSpace s) as [|c t]; [simpl; tauto|].
  destruct (Ascii.eqb c "-") eqn:Hm.
  - apply Ascii.eqb_eq in Hm. subst c. cbn [orb].
    rewrite <- readDigits_none.
    destruct (readDigits None t); cbn [option_map]; split; congruence.
  - destruct (Ascii.eqb c "+") eqn:Hp.
    + apply Ascii.eqb_eq in Hp. subst c. cbn [orb]. apply readDigits_none.
    + cbn [orb]. rewrite <- readDigits_none.
      destruct c as [[] [] [] [] [] [] [] []]; try discriminate; reflexivity.
Qed.

Lemma isDigit_not_space (c : ascii) :
  isDigit c = true -> isWhiteSpace c = false.
Proof.
  destruct c as [[] [] [] [] [] [] [] []]; try discriminate; reflexivity.
Qed.

Lemma isDigit_not_sign (c : ascii) (t : string) :
  isDigit c = true -> dropSign (String c t) = String c t.
Proof.
  destruct c as [[] [] [] [] [] [] [] []]; try discriminate; reflexivity.
Qed.

(** A text made of decimal digits only is never NaN. *)
Lemma parseInt_numeric (s : string) :
  isNumericString s = true -> parseInt s <> None.
Proof.
  destruct s as [|c t]; [discriminate|].
  unfold isNumericString. cbn [truthy allDigits andb].
  intros H. apply andb_prop in H. destruct H as [Hc _].
  rewrite parseInt_none. cbn [skipClass].
  rewrite (isDigit_not_space c Hc), (isDigit_not_sign c t Hc).
  simpl. rewrite Hc. discriminate.
Qed.

Lemma getQuestionRoute_parsed (idParam : string) (id : Z) (st : Store) :
  parseInt idParam = Some id ->
  getQuestionRoute idParam st =
  (Resolved
     match find (hasId id) (questions st) with
     | None => if inIntRange id then notFound else internalError
     | Some q => mkResponse 200 (QuestionJson q)
     end,
   sent (QuestionsFindUnique id) st).
Proof.
  intros H. unfold getQuestionRoute. rewrite H.
  unfold tryCatch, bind, getQuestionById, questionsFindUnique.
  destruct (find (hasId id) (questions st)); [reflexivity|].
  destruct (inIntRange id); reflexivity.
Qed.

Lemma deleteQuestionRoute_parsed (idParam : string) (id : Z) (st : Store) :
  parseInt idParam = Some id ->
  deleteQuestionRoute idParam st =
  match find (hasId id) (questions st) with
  | None =>
      (Resolved (if inIntRange id then notFound else internalError),
       sent (QuestionsFindUnique id) st)
  | Some q =>
      (Resolved (mkResponse 204 NoBody), snd (deleteQuestion id st))
  end.
Proof.
  intros H. unfold deleteQuestionRoute. rewrite H. unfold tryCatch, bind.
  destruct (find (hasId id) (questions st)) as [q|] eqn:Hf.
  - rewrite (deleteQuestion_found _ _ _ Hf). reflexivity.
  - rewrite (deleteQuestion_absent _ _ Hf).
    destruct (inIntRange id); reflexivity.
Qed.

Lemma patchQuestionRoute_not_found (xss : string -> string)
  (idParam : string) (id : Z) (json : option t) (st st' : Store)
  (response : Response) :
  parseInt idParam = Some id ->
  patchQuestionRoute xss idParam json st = (Resolved response, st') ->
  status response = 404 ->
  find (hasId id) (questions st) = None.
Proof.
  intros Hp. unfold patchQuestionRoute. rewrite Hp.
  destruct json as [body|];
    [|intros H; injection H as <- _; discriminate].
  destruct (validateQuestionForUpdate body) as [data|issues];
    [|intros H; injection H as <- _; discriminate].
  destruct (find (hasId id) (questions st)) as [q|] eqn:Hf; [|reflexivity].
  unfold tryCatch, updateQuestion, bind, questionsFindUnique. rewrite Hf.
  destruct (questionsUpdate _ _ _) as [[u|e] st1];
    intros H; injection H as <- _; discriminate.
Qed.

(** C9, amended: the three routes on /questions/:id answer 400 without
    sending the store any statement when parseInt of the id parameter is
    NaN, which is when the parameter, after leading white space and one
    sign, does not start with a decimal digit; a parameter that parses is
    never answered with the invalid-id response, and GET and DELETE then
    start by looking the parsed id up; a 404 is only ever answered for a
    parameter that parses and whose parsed id matches no question. *)
Theorem question_routes_invalid_id (xss : string -> string) (st : Store)
  (idParam : string) (json : option t) :
  (parseInt idParam = None <->
   startsWithDigit (dropSign (skipClass isWhiteSpace idParam)) = false) /\
  (parseInt idParam = None ->
   getQuestionRoute idParam st = (Resolved invalidId, st) /\
   patchQuestionRoute xss idParam json st = (Resolved invalidId, st) /\
   deleteQuestionRoute idParam st = (Resolved invalidId, st)) /\
  (forall id,
      parseInt idParam = Some id ->
      journal (snd (getQuestionRoute idParam st)) =
      QuestionsFindUnique id :: journal st /\
      (exists later,
          journal (snd (deleteQuestionRoute idParam st)) =
          (later ++ QuestionsFindUnique id :: journal st)%list) /\
      fst (getQuestionRoute idParam st) <> Resolved invalidId /\
      fst (patchQuestionRoute xss idParam json st) <> Resolved invalidId /\
      fst (deleteQuestionRoute idParam st) <> Resolved invalidId) /\
  (forall response st',
      getQuestionRoute idParam st = (Resolved response, st') \/
      patchQuestionRoute xss idParam json st = (Resolved response, st') \/
      deleteQuestionRoute idParam st = (Resolved response, st') ->
      status response = 404 ->
      exists id,
        parseInt idParam = Some id /\
        find (hasId id) (questions st) = None).
Proof.
  split; [apply parseInt_none|]. split; [|split].
  - intros H. unfold getQuestionRoute, patchQuestionRoute,
      deleteQuestionRoute. rewrite H. auto.
  - intros id H. split; [|split; [|split; [|split]]].
    + rewrite (getQuestionRoute_parsed _ _ _ H). reflexivity.
    + rewrite (deleteQuestionRoute_parsed _ _ _ H).
      destruct (find (hasId id) (questions st)) as [q|] eqn:Hf.
      * rewrite (deleteQuestion_found _ _ _ Hf).
        exists [QuestionsDelete id]. reflexivity.
      * exists []. reflexivity.
    + rewrite (getQuestionRoute_parsed _ _ _ H).
      destruct (find (hasId id) (questions st)); [discriminate|].
      destruct (inIntRange id); discriminate.
    + unfold patchQuestionRoute. rewrite H.
      destruct json as [body|]; [|discriminate].
      destruct (validateQuestionForUpdate body); [|discriminate].
      unfold tryCatch, updateQuestion, bind, questionsFindUnique.
      destruct (find (hasId id) (questions _));
        [|destruct (inIntRange id); discriminate].
      destruct (questionsUpdate _ _ _) as [[u|e] st1]; discriminate.
    + rewrite (deleteQuestionRoute_parsed _ _ _ H).
      destruct (find (hasId id) (questions st)); [discriminate|].
      destruct (inIntRange id); discriminate.
  - intros response st' Hr Hs.
    destruct (parseInt idParam) as [id|] eqn:Hp.
    + exists id. split; [reflexivity|].
      destruct Hr as [Hr | [Hr | Hr]].
      * rewrite (getQuestionRoute_parsed _ _ _ Hp) in Hr.
        destruct (find (hasId id) (questions st)); [|reflexivity].
        injection Hr as <- _. discriminate.
      * exact (patchQuestionRoute_not_found xss _ _ _ _ _ _ Hp Hr Hs).
      * rewrite (deleteQuestionRoute_parsed _ _ _ Hp) in Hr.
        destruct (find (hasId id) (questions st)); [|reflexivity].
        injection Hr as <- _. discriminate.
    + unfold getQuestionRoute, patchQuestionRoute, deleteQuestionRoute in Hr.
      rewrite Hp in Hr.
      destruct Hr as [Hr | [Hr | Hr]]; injection Hr as <- _; discriminate.
Qed.

Lemma question_routes_invalid_id_witness :
  (getQuestionRoute "abc" seeded = (Resolved invalidId, seeded) /\
   patchQuestionRoute escapeTags "abc" (Some answerOnly) seeded =
   (Resolved invalidId, seeded) /\
   deleteQuestionRoute "abc" seeded = (Resolved invalidId, seeded)) /\
  (exists id,
      parseInt "999" = Some id /\
      find (hasId id) (questions seeded) = None).
Proof.
  destruct (question_routes_invalid_id escapeTags seeded "abc"
              (Some answerOnly)) as [_ [H _]].
  split; [apply H; reflexivity|].
  destruct (question_routes_invalid_id escapeTags seeded "999"
              (Some answerOnly)) as [_ [_ [_ H']]].
  apply (H' notFound (sent (QuestionsFindUnique 999) seeded)).
  - left. reflexivity.
  - reflexivity.
Defined.

(** C9 as stated fails: "12abc" is not a numeric string, yet the route looks
    question 12 up and answers 404, not 400. *)
Lemma getQuestionRoute_numeric_prefix_counterexample :
  isNumericString "12abc" = false /\
  getQuestionRoute "12abc" seeded =
  (Resolved notFound, sent (QuestionsFindUnique 12) seeded) /\
  status notFound <> 400.
Proof.
  split; [reflexivity|]. split; [reflexivity|]. discriminate.
Qed.

End RouteFacts.

(* ===================================================================== *)
(** * Part III: further properties of the code *)
(* ===================================================================== *)

(** ** More on slugs *)

Module SlugMoreFacts.

Import JsString Prisma CategoriesDb SlugRule SlugFacts Integrity.

Lemma lowerChar_slugChar (c : ascii) :
  isSlugChar c = true -> lowerChar c = c.
Proof.
  destruct c as [[] [] [] [] [] [] [] []]; try discriminate; reflexivity.
Qed.

Lemma slugChar_not_space (c : ascii) :
  isSlugChar c = true -> negb (isWhiteSpace c) = true.
Proof.
  destruct c as [[] [] [] [] [] [] [] []]; try discriminate; reflexivity.
Qed.

Lemma slugChar_kept (c : ascii) :
  isSlugChar c = true -> isWordChar c || isHyphen c = true.
Proof.
  destruct c as [[] [] [] [] [] [] [] []]; try discriminate; reflexivity.
Qed.

Lemma allChars_impl (p q : ascii -> bool) (s : string) :
  (forall c, p c = true -> q c = true) ->
  allChars p s = true -> allChars q s = true.
Proof.
  intros Hpq. induction s as [|c t IH]; simpl; [reflexivity|].
  intros H. apply andb_prop in H. destruct H as [Hc Ht].
  rewrite (Hpq c Hc). auto.
Qed.

Lemma toLowerCase_slugChars (s : string) :
  allChars isSlugChar s = true -> toLowerCase s = s.
Proof.
  induction s as [|c t IH]; simpl; [reflexivity|].
  intros H. apply andb_prop in H. destruct H as [Hc Ht].
  rewrite (lowerChar_slugChar c Hc), (IH Ht). reflexivity.
Qed.

Lemma keepWordAndHyphen_slugChars_id (s : string) :
  allChars isSlugChar s = true -> keepWordAndHyphen s = s.
Proof.
  induction s as [|c t IH]; simpl; [reflexivity|].
  intros H. apply andb_prop in H. destruct H as [Hc Ht].
  rewrite (slugChar_kept c Hc), (IH Ht). reflexivity.
Qed.

(** A text made of the characters a-z, 0-9, underscore and hyphen is its
    own slug. *)
Lemma slugify_fixed (s : string) :
  allChars isSlugChar s = true -> slugify s = s.
Proof.
  intros H. rewrite slugify_slugRule. unfold slugRule.
  rewrite (toLowerCase_slugChars s H).
  rewrite hyphenateRuns_no_space
    by (apply (allChars_impl isSlugChar); [apply slugChar_not_space | exact H]).
  apply keepWordAndHyphen_slugChars_id, H.
Qed.

Lemma slugify_slugChars (s : string) :
  allChars isSlugChar (slugify s) = true.
Proof.
  rewrite slugify_slugRule. unfold slugRule.
  apply keepWordAndHyphen_slugChars, hyphenateRuns_lowered,
    toLowerCase_lowered.
Qed.

(** X1: the slug of a slug is that slug. *)
Theorem slugify_idempotent (s : string) : slugify (slugify s) = slugify s.
Proof.
  apply slugify_fixed, slugify_slugChars.
Qed.

Lemma lowerChar_idempotent (c : ascii) : lowerChar (lowerChar c) = lowerChar c.
Proof.
  destruct c as [[] [] [] [] [] [] [] []]; reflexivity.
Qed.

Lemma toLowerCase_idempotent (s : string) :
  toLowerCase (toLowerCase s) = toLowerCase s.
Proof.
  induction s as [|c t IH]; simpl; [reflexivity|].
  rewrite lowerChar_idempotent, IH. reflexivity.
Qed.

(** X2: the slug does not depend on the case of the text: a text and its
    lower-case form have the same slug. *)
Theorem slugify_case_insensitive (s : string) :
  slugify (toLowerCase s) = slugify s.
Proof.
  unfold slugify. rewrite toLowerCase_idempotent. reflexivity.
Qed.







End SlugMoreFacts.

(** ** More on validation *)

Module ValidationMoreFacts.

Import JsValue Zod Validation ValidationFacts Listing.

(** X4: validateCategoryForCreate succeeds exactly on the objects whose
    title is a string of 3 to 1024 code units, both bounds included, and
    returns that title; a title shorter than 3 is reported as too small on
    the path title; validateCategory gives the same result on every
    value. *)
Theorem validateCategoryForCreate_spec (v : t) :
  (forall d,
      validateCategoryForCreate v = Success d <->
      isObject v = true /\
      exists s, prop "title" v = Str s /\ lengthWithin 3 1024 s /\
                d = mkCategoryToCreate s) /\
  (forall s,
      isObject v = true -> prop "title" v = Str s ->
      (String.length s < 3)%nat ->
      validateCategoryForCreate v = Failure [mkIssue ["title"] too_small]) /\
  validateCategory v = validateCategoryForCreate v.
Proof.
  split; [|split; [|reflexivity]].
  - intros d. unfold validateCategoryForCreate. split.
    + destruct (isObject v); [|discriminate].
      destruct (zString 3 1024 ["title"] (prop "title" v)) eqn:Hs;
        [|discriminate].
      intros H. injection H as <-. apply zString_success in Hs.
      destruct Hs as [Hv Hl]. split; [reflexivity|]. eauto.
    + intros [-> [s [Hv [Hl ->]]]].
      assert (Hs : zString 3 1024 ["title"] (prop "title" v) = Success s)
        by (apply zString_success; auto).
      rewrite Hs. reflexivity.
  - intros s Ho Hv Hlen. unfold validateCategoryForCreate.
    rewrite Ho, Hv. unfold zString.
    assert (H3 : (String.length s <? 3)%nat = true)
      by (apply Nat.ltb_lt; exact Hlen).
    assert (H1024 : (1024 <? String.length s)%nat = false)
      by (apply Nat.ltb_ge; lia).
    rewrite H3, H1024. reflexivity.
Qed.

Lemma validateCategoryForCreate_spec_witness :
  validateCategoryForCreate (Object [("title", Str "Ts")]) =
  Failure [mkIssue ["title"] too_small].
Proof.
  destruct (validateCategoryForCreate_spec (Object [("title", Str "Ts")]))
    as [_ [H _]].
  apply (H "Ts"); [reflexivity | reflexivity | simpl; lia].
Defined.

(** X5: validateQuestionForUpdate succeeds exactly on the objects in which
    each of question, answer and categoryId is either left out or valid (a
    string of 3 to 1024 code units, a number other than NaN); the data keep
    the fields that are there and mark the others as absent, so the empty
    object is a valid change set and a null field is not. *)
Theorem validateQuestionForUpdate_success (v : t) (d : QuestionToUpdate) :
  validateQuestionForUpdate v = Success d <->
  isObject v = true /\
  ((prop "question" v = Undefined /\ update_question d = None) \/
   (exists s, prop "question" v = Str s /\ lengthWithin 3 1024 s /\
              update_question d = Some s)) /\
  ((prop "answer" v = Undefined /\ update_answer d = None) \/
   (exists s, prop "answer" v = Str s /\ lengthWithin 3 1024 s /\
              update_answer d = Some s)) /\
  ((prop "categoryId" v = Undefined /\ update_categoryId d = None) \/
   (exists n, prop "categoryId" v = Number n /\ n <> NaN /\
              update_categoryId d = Some n)).
Proof.
  unfold validateQuestionForUpdate. split.
  - destruct (isObject v); [|discriminate].
    destruct (zOptional (zString 3 1024) ["question"] _) eqn:Hq;
      [|discriminate].
    destruct (zOptional (zString 3 1024) ["answer"] _) eqn:Ha;
      [|discriminate].
    destruct (zOptional zNumber ["categoryId"] _) eqn:Hc; [|discriminate].
    intros H. injection H as <-.
    cbn [update_question update_answer update_categoryId].
    apply zOptional_success in Hq, Ha, Hc.
    split; [reflexivity|]. split; [|split].
    + destruct Hq as [[Hv ->] | [_ [s [Hs ->]]]]; [left; auto|].
      apply zString_success in Hs. destruct Hs as [Hv Hl]. right. eauto.
    + destruct Ha as [[Hv ->] | [_ [s [Hs ->]]]]; [left; auto|].
      apply zString_success in Hs. destruct Hs as [Hv Hl]. right. eauto.
    + destruct Hc as [[Hv ->] | [_ [n [Hn ->]]]]; [left; auto|].
      apply zNumber_success in Hn. destruct Hn as [Hv Hn]. right. eauto.
  - intros [-> [Hq [Ha Hc]]]. destruct d as [dq da dc].
    cbn [update_question update_answer update_categoryId] in *.
    assert (Eq : zOptional (zString 3 1024) ["question"]
                   (prop "question" v) = Success dq).
    { apply zOptional_success.
      destruct Hq as [[Hv ->] | [s [Hv [Hl ->]]]]; [left; auto|].
      right. split; [rewrite Hv; discriminate|].
      exists s. split; [apply zString_success; auto | reflexivity]. }
    assert (Ea : zOptional (zString 3 1024) ["answer"]
                   (prop "answer" v) = Success da).
    { apply zOptional_success.
      destruct Ha as [[Hv ->] | [s [Hv [Hl ->]]]]; [left; auto|].
      right. split; [rewrite Hv; discriminate|].
      exists s. split; [apply zString_success; auto | reflexivity]. }
    assert (Ec : zOptional zNumber ["categoryId"]
                   (prop "categoryId" v) = Success dc).
    { apply zOptional_success.
      destruct Hc as [[Hv ->] | [n [Hv [Hn ->]]]]; [left; auto|].
      right. split; [rewrite Hv; discriminate|].
      exists n. split; [apply zNumber_success; auto | reflexivity]. }
    rewrite Eq, Ea, Ec. reflexivity.
Qed.

Lemma zString_failure (lo hi : nat) (p : list string) (v : t)
  (l : list Issue) :
  zString lo hi p v = Failure l ->
  l <> [] /\ forall i, In i l -> path i = p.
Proof.
  unfold zString. destruct v;
    try (intros H; injection H as <-; split;
         [discriminate | intros i [<-|[]]; reflexivity]).
  destruct (String.length s <? lo)%nat, (hi <? String.length s)%nat;
    simpl; intros H; try discriminate; injection H as <-;
    (split; [discriminate|]); intros i Hi; simpl in Hi;
    repeat (destruct Hi as [<-|Hi]; [reflexivity|]); destruct Hi.
Qed.

Lemma zNumber_failure (p : list string) (v : t) (l : list Issue) :
  zNumber p v = Failure l -> l = [mkIssue p invalid_type].
Proof.
  unfold zNumber. destruct v; try (intros H; injection H as <-; reflexivity).
  destruct n; [|discriminate]. intros H. injection H as <-. reflexivity.
Qed.

Lemma zString_issues_path (lo hi : nat) (p : list string) (v : t) (i : Issue) :
  In i (issuesOf (zString lo hi p v)) -> path i = p.
Proof.
  destruct (zString lo hi p v) as [s|l] eqn:H; simpl; [tauto|].
  apply (zString_failure _ _ _ _ _ H).
Qed.

Lemma zNumber_issues_path (p : list string) (v : t) (i : Issue) :
  In i (issuesOf (zNumber p v)) -> path i = p.
Proof.
  destruct (zNumber p v) as [n|l] eqn:H; simpl; [tauto|].
  rewrite (zNumber_failure _ _ _ H). intros [<-|[]]. reflexivity.
Qed.

Lemma zString_failure_reported (lo hi : nat) (p : list string) (v : t) :
  success (zString lo hi p v) = false ->
  exists i, In i (issuesOf (zString lo hi p v)) /\ path i = p.
Proof.
  destruct (zString lo hi p v) as [s|l] eqn:H; simpl; [discriminate|].
  intros _. destruct (zString_failure _ _ _ _ _ H) as [Hne Hp].
  destruct l as [|i l']; [contradiction|].
  exists i. split; [left; reflexivity | apply Hp; left; reflexivity].
Qed.

(** X6: when validateQuestionForCreate rejects an object, every issue is
    keyed by one of the three field names, and every invalid field has an
    issue of its own: the fields are all checked, not only the first one
    that fails. *)
Theorem validateQuestionForCreate_issues (v : t) (l : list Issue) :
  isObject v = true ->
  validateQuestionForCreate v = Failure l ->
  l <> [] /\
  (forall i, In i l ->
             path i = ["question"] \/ path i = ["answer"] \/
             path i = ["categoryId"]) /\
  ((forall s, prop "question" v = Str s -> ~ lengthWithin 3 1024 s) ->
   exists i, In i l /\ path i = ["question"]) /\
  ((forall s, prop "answer" v = Str s -> ~ lengthWithin 3 1024 s) ->
   exists i, In i l /\ path i = ["answer"]) /\
  ((forall n, prop "categoryId" v = Number n -> n = NaN) ->
   exists i, In i l /\ path i = ["categoryId"]).
Proof.
  intros Ho. unfold validateQuestionForCreate. rewrite Ho.
  set (q := zString 3 1024 ["question"] (prop "question" v)).
  set (a := zString 3 1024 ["answer"] (prop "answer" v)).
  set (c := zNumber ["categoryId"] (prop "categoryId" v)).
  intros H.
  assert (Hl : l = (issuesOf q ++ issuesOf a ++ issuesOf c)%list /\
               (success q && success a && success c = false)).
  { destruct q, a, c; simpl in *; try discriminate;
      injection H as <-; split; reflexivity. }
  clear H. destruct Hl as [-> Hfail].
  split; [|split; [|split; [|split]]].
  - destruct q as [qs|ql] eqn:Hq.
    + destruct a as [as'|al] eqn:Ha.
      * destruct c as [cn|cl] eqn:Hc; [discriminate|].
        unfold c in Hc. rewrite (zNumber_failure _ _ _ Hc). discriminate.
      * unfold a in Ha. destruct (zString_failure _ _ _ _ _ Ha) as [Hne _].
        simpl. destruct al; [contradiction | discriminate].
    + unfold q in Hq. destruct (zString_failure _ _ _ _ _ Hq) as [Hne _].
      simpl. destruct ql; [contradiction | discriminate].
  - intros i Hi. apply in_app_or in Hi. destruct Hi as [Hi|Hi].
    + left. apply (zString_issues_path _ _ _ _ _ Hi).
    + apply in_app_or in Hi. destruct Hi as [Hi|Hi].
      * right. left. apply (zString_issues_path _ _ _ _ _ Hi).
      * right. right. apply (zNumber_issues_path _ _ _ Hi).
  - intros Hbad.
    destruct (zString_failure_reported 3 1024 ["question"]
                (prop "question" v)) as [i [Hi Hp]].
    { destruct (zString 3 1024 ["question"] (prop "question" v)) eqn:Hs;
        [|reflexivity].
      apply zString_success in Hs. destruct Hs as [Hv Hlen].
      elim (Hbad _ Hv Hlen). }
    exists i. split; [apply in_or_app; left; exact Hi | exact Hp].
  - intros Hbad.
    destruct (zString_failure_reported 3 1024 ["answer"]
                (prop "answer" v)) as [i [Hi Hp]].
    { destruct (zString 3 1024 ["answer"] (prop "answer" v)) eqn:Hs;
        [|reflexivity].
      apply zString_success in Hs. destruct Hs as [Hv Hlen].
      elim (Hbad _ Hv Hlen). }
    exists i. split; [|exact Hp].
    apply in_or_app. right. apply in_or_app. left. exact Hi.
  - intros Hbad.
    destruct (zNumber ["categoryId"] (prop "categoryId" v)) as [n|cl] eqn:Hc.
    + apply zNumber_success in Hc. destruct Hc as [Hv Hn].
      elim (Hn (Hbad _ Hv)).
    + exists (mkIssue ["categoryId"] invalid_type). split; [|reflexivity].
      apply in_or_app. right. apply in_or_app. right.
      subst c. cbn [issuesOf]. rewrite (zNumber_failure _ _ _ Hc).
      left. reflexivity.
Qed.

Lemma validateQuestionForCreate_issues_witness :
  exists i j,
    In i (issuesOf (validateQuestionForCreate
                      (Object [("question", Str "Hi"); ("answer", Str "Yo");
                               ("categoryId", Number (ofInt 1))]))) /\
    path i = ["question"] /\
    In j (issuesOf (validateQuestionForCreate
                      (Object [("question", Str "Hi"); ("answer", Str "Yo");
                               ("categoryId", Number (ofInt 1))]))) /\
    path j = ["answer"].
Proof.
  destruct (validateQuestionForCreate_issues
              (Object [("question", Str "Hi"); ("answer", Str "Yo");
                       ("categoryId", Number (ofInt 1))])
              [mkIssue ["question"] too_small; mkIssue ["answer"] too_small]
              eq_refl eq_refl) as [_ [_ [Hq [Ha _]]]].
  destruct Hq as [i [Hi Hp]].
  { intros s Hs. injection Hs as <-. unfold lengthWithin. simpl. lia. }
  destruct Ha as [j [Hj Hpj]].
  { intros s Hs. injection Hs as <-. unfold lengthWithin. simpl. lia. }
  exists i, j. auto.
Defined.

End ValidationMoreFacts.

(** ** Listings *)

Module ListingFacts.

Import Prisma Expected Integrity Listing StoreFacts Fixtures.

Lemma insertCategoryById_perm (c : Category) (l : list Category) :
  Permutation (c :: l) (insertCategoryById c l).
Proof.
  induction l as [|h t IH]; simpl; [apply Permutation_refl|].
  destruct (cat_id c <=? cat_id h); [apply Permutation_refl|].
  eapply perm_trans; [apply perm_swap|]. apply perm_skip, IH.
Qed.

Lemma orderCategoriesByIdAsc_perm (l : list Category) :
  Permutation (orderCategoriesByIdAsc l) l.
Proof.
  induction l as [|c t IH]; simpl; [constructor|].
  eapply perm_trans; [apply Permutation_sym, insertCategoryById_perm|].
  apply perm_skip, IH.
Qed.

Lemma insertCategoryById_sorted (c : Category) (l : list Category) :
  ascendingCategoryIds l -> ascendingCategoryIds (insertCategoryById c l).
Proof.
  unfold ascendingCategoryIds.
  induction l as [|h t IH]; simpl; intros Hs.
  - constructor; constructor.
  - apply StronglySorted_inv in Hs. destruct Hs as [Ht Hh].
    destruct (cat_id c <=? cat_id h) eqn:Hle.
    + apply Z.leb_le in Hle. constructor.
      * constructor; assumption.
      * constructor; [assumption|].
        eapply Forall_impl; [|exact Hh]. intros a Ha. simpl in Ha. lia.
    + apply Z.leb_gt in Hle. constructor; [auto|].
      eapply Permutation_Forall; [apply insertCategoryById_perm|].
      constructor; [lia | assumption].
Qed.

Lemma orderCategoriesByIdAsc_sorted (l : list Category) :
  ascendingCategoryIds (orderCategoriesByIdAsc l).
Proof.
  induction l as [|c t IH]; simpl; [constructor|].
  apply insertCategoryById_sorted, IH.
Qed.

Lemma StronglySorted_skipn {A : Type} (R : A -> A -> Prop) (n : nat)
  (l : list A) :
  StronglySorted R l -> StronglySorted R (skipn n l).
Proof.
  revert l. induction n as [|n IH]; intros l Hs; [exact Hs|].
  destruct l as [|x t]; [constructor|].
  simpl. apply IH. apply StronglySorted_inv in Hs. tauto.
Qed.

Lemma StronglySorted_firstn {A : Type} (R : A -> A -> Prop) (n : nat)
  (l : list A) :
  StronglySorted R l -> StronglySorted R (firstn n l).
Proof.
  revert l. induction n as [|n IH]; intros l Hs; [constructor|].
  destruct l as [|x t]; [constructor|].
  apply StronglySorted_inv in Hs. destruct Hs as [Ht Hx].
  simpl. constructor; [apply IH, Ht|].
  rewrite Forall_forall in *. intros y Hy. apply Hx.
  rewrite <- (firstn_skipn n t). apply in_or_app. left. exact Hy.
Qed.

Lemma firstn_plus {A : Type} (a b : nat) (l : list A) :
  firstn (a + b) l = (firstn a l ++ firstn b (skipn a l))%list.
Proof.
  revert l. induction a as [|a IH]; intros l; [reflexivity|].
  destruct l as [|x t]; simpl; [destruct b; reflexivity|].
  f_equal. apply IH.
Qed.

Lemma skipn_plus {A : Type} (a b : nat) (l : list A) :
  skipn (a + b) l = skipn b (skipn a l).
Proof.
  revert l. induction a as [|a IH]; intros l; [reflexivity|].
  destruct l as [|x t]; simpl; [destruct b; reflexivity|]. apply IH.
Qed.

Lemma getCategories_unfold (limit offset : nat) (st : Store) :
  getCategories limit offset st =
  (Resolved
     (firstn limit (skipn offset (orderCategoriesByIdAsc (categories st)))),
   st).
Proof. reflexivity. Qed.

(** X7: getCategories returns a page of the categories in ascending order
    of id and leaves the store alone: the page holds at most [limit]
    categories, all of them stored; it is empty once the offset reaches the
    number of categories; and a page followed by the page that starts where
    it ends is the one larger page. *)
Theorem getCategories_pages (st : Store) (limit offset more : nat) :
  exists page next,
    getCategories limit offset st = (Resolved page, st) /\
    getCategories more (offset + limit) st = (Resolved next, st) /\
    getCategories (limit + more) offset st =
    (Resolved (page ++ next)%list, st) /\
    (length page <= limit)%nat /\
    ascendingCategoryIds page /\
    (forall c, In c page -> In c (categories st)) /\
    ((length (categories st) <= offset)%nat -> page = []).
Proof.
  do 2 eexists. rewrite !getCategories_unfold.
  split; [reflexivity|]. split; [reflexivity|].
  set (sorted := orderCategoriesByIdAsc (categories st)).
  split; [|split; [|split; [|split]]].
  - rewrite firstn_plus, skipn_plus. reflexivity.
  - apply firstn_le_length.
  - apply StronglySorted_firstn, StronglySorted_skipn.
    apply orderCategoriesByIdAsc_sorted.
  - intros c Hc.
    apply (Permutation_in _ (orderCategoriesByIdAsc_perm (categories st))).
    fold sorted. rewrite <- (firstn_skipn offset sorted).
    apply in_or_app. right.
    rewrite <- (firstn_skipn limit (skipn offset sorted)).
    apply in_or_app. left. exact Hc.
  - intros Hlen.
    assert (Hs : skipn offset sorted = []).
    { apply skipn_all2. unfold sorted.
      rewrite (Permutation_length
                 (orderCategoriesByIdAsc_perm (categories st))).
      exact Hlen. }
    rewrite Hs. apply firstn_nil.
Qed.

(** X8: getQuestions returns every stored question exactly once, in
    ascending order of id, and leaves the store alone. *)
Theorem getQuestions_sorted (st : Store) :
  exists l,
    getQuestions st = (Resolved l, st) /\
    Permutation l (questions st) /\
    ascendingIds l.
Proof.
  eexists. split; [reflexivity|]. split.
  - apply orderByIdAsc_perm.
  - apply orderByIdAsc_sorted.
Qed.

(** X9: the in-memory lookup getCategory finds html, css and js and nothing
    else, and what it finds has the slug asked for. *)
Theorem getCategory_spec (slug : string) :
  (getCategory slug <> None <->
   slug = "html" \/ slug = "css" \/ slug = "js") /\
  (forall c, getCategory slug = Some c ->
             cat_slug c = slug /\ In c mockCategories).
Proof.
  split.
  - unfold getCategory, mockCategories. cbn [find cat_slug].
    destruct (String.eqb "html" slug) eqn:H1.
    { apply String.eqb_eq in H1. subst. split; [auto | discriminate]. }
    destruct (String.eqb "css" slug) eqn:H2.
    { apply String.eqb_eq in H2. subst. split; [auto | discriminate]. }
    destruct (String.eqb "js" slug) eqn:H3.
    { apply String.eqb_eq in H3. subst. split; [auto | discriminate]. }
    apply String.eqb_neq in H1, H2, H3.
    split; [congruence|]. intros [H | [H | H]]; congruence.
  - intros c H. unfold getCategory in H. apply find_some in H.
    destruct H as [Hin Hs]. apply String.eqb_eq in Hs. auto.
Qed.

End ListingFacts.

(** ** More on the category service *)

Module CategoryMoreFacts.

Import JsString Prisma CategoriesDb Expected Integrity.
Import StoreFacts CategoryFacts Fixtures.

Lemma find_app_none {A : Type} (p : A -> bool) (l : list A) (x : A) :
  find p l = None -> p x = true -> find p (l ++ [x]) = Some x.
Proof.
  induction l as [|h t IH]; simpl; intros Hn Hx.
  - rewrite Hx. reflexivity.
  - destruct (p h); [discriminate|]. auto.
Qed.

Lemma find_none_iff {A : Type} (p : A -> bool) (l : list A) :
  find p l = None <-> forall x, In x l -> p x = false.
Proof.
  split; [apply find_none|].
  induction l as [|h t IH]; simpl; intros H; [reflexivity|].
  rewrite (H h (or_introl eq_refl)). apply IH. intros x Hx. apply H. auto.
Qed.

Lemma find_map_same {A : Type} (p p' : A -> bool) (w : A -> A) (l : list A) :
  (forall y, In y l -> p' (w y) = p y) ->
  find p' (map w l) = option_map w (find p l).
Proof.
  induction l as [|h t IH]; simpl; intros H; [reflexivity|].
  rewrite (H h (or_introl eq_refl)).
  destruct (p h); [reflexivity|]. apply IH. intros y Hy. apply H. auto.
Qed.



Lemma createCategory_accepted (st st' : Store) (data : CategoryToCreate)
  (created : Category) :
  createCategory data st = (Resolved created, st') ->
  existsb (clashes (create_title data) (slugify (create_title data)))
    (categories st) = false /\
  created = mkCategory (nextCategoryId st) (create_title data)
              (slugify (create_title data)) /\
  categories st' = (categories st ++ [created])%list /\
  questions st' = questions st /\
  nextCategoryId st' = nextCategoryId st + 1 /\
  nextQuestionId st' = nextQuestionId st.
Proof.
  rewrite createCategory_unfold. unfold categoriesCreate, clashes.
  cbn [data_title data_catSlug].
  destruct (existsb _ (categories st)); [discriminate|].
  intros H. injection H as <- <-. repeat split.
Qed.

Lemma no_clash_no_slug (title slug : string) (l : list Category) :
  existsb (clashes title slug) l = false -> find (hasSlug slug) l = None.
Proof.
  intros H. apply find_none_iff. intros c Hc.
  assert (Hx : clashes title slug c = false).
  { destruct (clashes title slug c) eqn:E; [|reflexivity].
    assert (existsb (clashes title slug) l = true)
      by (apply existsb_exists; eauto).
    congruence. }
  unfold clashes in Hx. apply orb_false_elim in Hx. apply Hx.
Qed.

Lemma createCategory_find (st st' : Store) (data : CategoryToCreate)
  (created : Category) :
  createCategory data st = (Resolved created, st') ->
  find (hasSlug (slugify (create_title data))) (categories st) = None /\
  cat_slug created = slugify (create_title data) /\
  find (hasSlug (cat_slug created)) (categories st') = Some created.
Proof.
  intros H. apply createCategory_accepted in H.
  destruct H as [Hfree [-> [Hc _]]].
  apply no_clash_no_slug in Hfree. cbn [cat_slug].
  rewrite Hc. split; [exact Hfree|]. split; [reflexivity|].
  apply find_app_none; [exact Hfree|].
  unfold hasSlug. apply String.eqb_refl.
Qed.

(** X11: a category that createCategory has just stored is what
    getCategoryBySlug returns for its slug, a slug that matched nothing
    before the call. *)
Theorem createCategory_then_getCategoryBySlug (st st' : Store)
  (data : CategoryToCreate) (created : Category) :
  createCategory data st = (Resolved created, st') ->
  fst (getCategoryBySlug (slugify (create_title data)) st) = Resolved None /\
  cat_slug created = slugify (create_title data) /\
  fst (getCategoryBySlug (cat_slug created) st') = Resolved (Some created).
Proof.
  intros H. destruct (createCategory_find _ _ _ _ H) as [Hnone [Hs Hf]].
  unfold getCategoryBySlug, categoriesFindUnique. cbn [fst].
  rewrite Hnone, Hf. auto.
Qed.

Lemma createCategory_then_getCategoryBySlug_witness :
  fst (getCategoryBySlug "react"
         (snd (createCategory (mkCategoryToCreate "React") seeded))) =
  Resolved (Some (mkCategory 4 "React" "react")).
Proof.
  apply (createCategory_then_getCategoryBySlug seeded
           (snd (createCategory (mkCategoryToCreate "React") seeded))
           (mkCategoryToCreate "React") (mkCategory 4 "React" "react")
           eq_refl).
Defined.

(** X12: once a category is stored, creating another whose title has the
    same slug is rejected for the unique constraint, whatever the title:
    titles that differ only in case, in punctuation or in the length of
    their runs of white space cannot both be categories. *)
Theorem createCategory_slug_collision (st st' : Store)
  (first second : CategoryToCreate) (created : Category) :
  createCategory first st = (Resolved created, st') ->
  slugify (create_title second) = slugify (create_title first) ->
  fst (createCategory second st') = Rejected UniqueConstraintFailed /\
  categories (snd (createCategory second st')) = categories st'.
Proof.
  intros H Hslug. apply createCategory_accepted in H.
  destruct H as [_ [-> [Hc _]]].
  assert (Htaken : existsb (clashes (create_title second)
                              (slugify (create_title second)))
                     (categories st') = true).
  { apply existsb_exists. eexists. split.
    - rewrite Hc. apply in_or_app. right. left. reflexivity.
    - unfold clashes. cbn [cat_slug cat_title]. rewrite Hslug.
      rewrite String.eqb_refl. apply orb_true_r. }
  rewrite createCategory_unfold. unfold categoriesCreate.
  cbn [data_title data_catSlug]. fold (clashes (create_title second)
                                         (slugify (create_title second))).
  rewrite Htaken. split; reflexivity.
Qed.

Lemma createCategory_slug_collision_witness :
  fst (createCategory (mkCategoryToCreate "REACT!")
         (snd (createCategory (mkCategoryToCreate "React") seeded))) =
  Rejected UniqueConstraintFailed.
Proof.
  apply (createCategory_slug_collision seeded
           (snd (createCategory (mkCategoryToCreate "React") seeded))
           (mkCategoryToCreate "React") (mkCategoryToCreate "REACT!")
           (mkCategory 4 "React" "react") eq_refl eq_refl).
Defined.

End CategoryMoreFacts.

(** ** The constraints of the schema are kept *)

Module IntegrityFacts.

Import JsString JsValue Prisma CategoriesDb QuestionsDb Listing Api.
Import Expected Integrity StoreFacts CategoryFacts Fixtures.

Lemma NoDup_map_snoc {A B : Type} (f : A -> B) (l : list A) (x : A) :
  NoDup (map f l) -> ~ In (f x) (map f l) -> NoDup (map f (l ++ [x])).
Proof.
  intros Hl Hx. rewrite map_app. simpl.
  apply (Permutation_NoDup (Permutation_cons_append (map f l) (f x))).
  constructor; assumption.
Qed.

(** Dropping rows keeps a column free of repetition. *)
Lemma NoDup_map_filter {Row Key : Type} (keep : Row -> bool)
  (column : Row -> Key) (rows : list Row) :
  NoDup (map column rows) -> NoDup (map column (filter keep rows)).
Proof.
  induction rows as [|row rest IH]; simpl; intros H; [constructor|].
  apply NoDup_cons_iff in H. destruct H as [Hrow Hrest].
  destruct (keep row); simpl; [|auto].
  constructor; [|auto].
  intros Hin. apply Hrow. apply in_map_iff in Hin.
  destruct Hin as [y [Hy Hyin]]. apply filter_In in Hyin.
  apply in_map_iff. exists y. tauto.
Qed.

Lemma NoDup_map_inj {A B : Type} (f : A -> B) (l : list A) (x y : A) :
  NoDup (map f l) -> In x l -> In y l -> f x = f y -> x = y.
Proof.
  induction l as [|h t IH]; simpl; intros H Hx Hy Hf; [contradiction|].
  apply NoDup_cons_iff in H. destruct H as [Hh Ht].
  destruct Hx as [<-|Hx], Hy as [<-|Hy]; auto.
  - elim Hh. rewrite Hf. apply in_map, Hy.
  - elim Hh. rewrite <- Hf. apply in_map, Hx.
Qed.

(** Rewriting the selected row: when at most one row is selected and the
    value written is not in use by the rows left alone, a column without
    repetition stays without repetition. *)
Lemma NoDup_map_write {A B : Type} (f : A -> B) (p : A -> bool) (g : A -> A)
  (v : B) (l : list A) :
  NoDup (map f l) ->
  (forall x y, In x l -> In y l -> p x = true -> p y = true -> x = y) ->
  (forall x, f (g x) = v) ->
  (forall x, In x l -> p x = false -> f x <> v) ->
  NoDup (map f (map (fun x => if p x then g x else x) l)).
Proof.
  induction l as [|h t IH]; simpl; intros Hnd Hone Hg Hv; [constructor|].
  apply NoDup_cons_iff in Hnd. destruct Hnd as [Hh Ht].
  assert (IH' : NoDup (map f (map (fun x => if p x then g x else x) t))).
  { apply IH; auto. }
  constructor; [|exact IH'].
  intros Hin. apply in_map_iff in Hin. destruct Hin as [y' [Hy' Hin]].
  apply in_map_iff in Hin. destruct Hin as [y [<- Hy]].
  destruct (p h) eqn:Hph, (p y) eqn:Hpy.
  - assert (h = y) by (apply Hone; auto). subst y.
    apply Hh, in_map, Hy.
  - rewrite Hg in Hy'. apply (Hv y); auto.
  - rewrite Hg in Hy'. apply (Hv h); auto.
  - apply Hh. rewrite <- Hy'. apply in_map, Hy.
Qed.

Lemma categoryExists_iff (categoryId : Z) (st : Store) :
  categoryExists categoryId st = true <->
  In categoryId (map cat_id (categories st)).
Proof.
  unfold categoryExists. rewrite existsb_exists, in_map_iff.
  split; intros [c [H1 H2]]; exists c.
  - apply Z.eqb_eq in H2. auto.
  - split; [tauto|]. apply Z.eqb_eq. tauto.
Qed.

(** Well-formedness looks at the rows and the sequences only, and survives
    sequences that move ahead. *)
Lemma WellFormed_rows (st st' : Store) :
  categories st' = categories st ->
  questions st' = questions st ->
  nextCategoryId st <= nextCategoryId st' ->
  nextQuestionId st <= nextQuestionId st' ->
  WellFormed st -> WellFormed st'.
Proof.
  intros Hc Hq Hnc Hnq [H1 H2 H3 H4 H5 H6 H7 H8].
  constructor; rewrite ?Hc, ?Hq; auto.
  - intros q Hin. apply categoryExists_iff. rewrite Hc.
    apply categoryExists_iff. auto.
  - intros c Hin. specialize (H7 c Hin). lia.
  - intros q Hin. specialize (H8 q Hin). lia.
Qed.

Lemma no_clash_rows (title slug : string) (l : list Category) :
  existsb (clashes title slug) l = false ->
  forall c, In c l -> cat_title c <> title /\ cat_slug c <> slug.
Proof.
  intros H c Hc.
  assert (Hx : clashes title slug c = false).
  { destruct (clashes title slug c) eqn:E; [|reflexivity].
    assert (existsb (clashes title slug) l = true)
      by (apply existsb_exists; eauto).
    congruence. }
  unfold clashes in Hx. apply orb_false_elim in Hx. destruct Hx as [Ht Hs].
  apply String.eqb_neq in Ht, Hs. auto.
Qed.

Lemma categoriesCreate_preserves (data : CategoryData) :
  Preserves (categoriesCreate data).
Proof.
  intros st Hwf. unfold categoriesCreate.
  fold (clashes (data_title data) (data_catSlug data)).
  destruct (existsb _ (categories st)) eqn:Hfree.
  - apply (WellFormed_rows st); simpl; auto; lia.
  - pose proof (no_clash_rows _ _ _ Hfree) as Hrows.
    destruct Hwf as [H1 H2 H3 H4 H5 H6 H7 H8].
    constructor; simpl.
    + apply NoDup_map_snoc; [exact H1|]. simpl. intros Hin.
      apply in_map_iff in Hin. destruct Hin as [c [Hid Hc]].
      specialize (H7 c Hc). lia.
    + apply NoDup_map_snoc; [exact H2|]. simpl. intros Hin.
      apply in_map_iff in Hin. destruct Hin as [c [Hs Hc]].
      exact (proj2 (Hrows c Hc) Hs).
    + apply NoDup_map_snoc; [exact H3|]. simpl. intros Hin.
      apply in_map_iff in Hin. destruct Hin as [c [Ht Hc]].
      exact (proj1 (Hrows c Hc) Ht).
    + exact H4.
    + exact H5.
    + intros q Hq. apply categoryExists_iff. simpl.
      rewrite map_app. apply in_or_app. left.
      apply categoryExists_iff. auto.
    + intros c Hc. apply in_app_or in Hc. destruct Hc as [Hc|[<-|[]]].
      * specialize (H7 c Hc). lia.
      * simpl. lia.
    + exact H8.
Qed.

Lemma hasSlug_unique (slug : string) (st : Store) :
  WellFormed st ->
  forall x y, In x (categories st) -> In y (categories st) ->
              hasSlug slug x = true -> hasSlug slug y = true -> x = y.
Proof.
  intros Hwf x y Hx Hy Hsx Hsy.
  apply (NoDup_map_inj cat_slug (categories st)); auto.
  - apply Hwf.
  - apply String.eqb_eq in Hsx, Hsy. congruence.
Qed.

Lemma hasId_unique (id : Z) (st : Store) :
  WellFormed st ->
  forall x y, In x (questions st) -> In y (questions st) ->
              hasId id x = true -> hasId id y = true -> x = y.
Proof.
  intros Hwf x y Hx Hy Hsx Hsy.
  apply (NoDup_map_inj q_id (questions st)); auto.
  - apply Hwf.
  - apply Z.eqb_eq in Hsx, Hsy. congruence.
Qed.

Lemma categoriesUpdate_preserves (slug : string) (data : CategoryData) :
  Preserves (categoriesUpdate slug data).
Proof.
  intros st Hwf. unfold categoriesUpdate.
  destruct (find (hasSlug slug) (categories st)) as [existing|] eqn:Hf;
    [|apply (WellFormed_rows st); simpl; auto; lia].
  destruct (existsb _ (categories st)) eqn:Hfree;
    [apply (WellFormed_rows st); simpl; auto; lia|].
  assert (Hrows : forall c, In c (categories st) -> hasSlug slug c = false ->
                            cat_title c <> data_title data /\
                            cat_slug c <> data_catSlug data).
  { intros c Hc Hs.
    destruct (String.eqb (cat_title c) (data_title data)
              || String.eqb (cat_slug c) (data_catSlug data)) eqn:E.
    - assert (existsb
                (fun c => negb (hasSlug slug c)
                          && (String.eqb (cat_title c) (data_title data)
                              || String.eqb (cat_slug c) (data_catSlug data)))
                (categories st) = true).
      { apply existsb_exists. exists c. rewrite Hs, E. auto. }
      congruence.
    - apply orb_false_elim in E. destruct E as [Et Es].
      apply String.eqb_neq in Et, Es. auto. }
  pose proof (hasSlug_unique slug st Hwf) as Hone.
  destruct Hwf as [H1 H2 H3 H4 H5 H6 H7 H8].
  set (write := fun c => if hasSlug slug c
                         then mkCategory (cat_id c) (data_title data)
                                (data_catSlug data)
                         else c).
  assert (Hids : map cat_id (map write (categories st)) =
                 map cat_id (categories st)).
  { rewrite map_map. apply map_ext. intros c. unfold write.
    destruct (hasSlug slug c); reflexivity. }
  constructor; simpl; fold write.
  - rewrite Hids. exact H1.
  - apply (NoDup_map_write cat_slug (hasSlug slug)
             (fun c => mkCategory (cat_id c) (data_title data)
                         (data_catSlug data)) (data_catSlug data)); auto.
    intros c Hc Hs. exact (proj2 (Hrows c Hc Hs)).
  - apply (NoDup_map_write cat_title (hasSlug slug)
             (fun c => mkCategory (cat_id c) (data_title data)
                         (data_catSlug data)) (data_title data)); auto.
    intros c Hc Hs. exact (proj1 (Hrows c Hc Hs)).
  - exact H4.
  - exact H5.
  - intros q Hq. apply categoryExists_iff. simpl. fold write.
    rewrite Hids. apply categoryExists_iff. auto.
  - intros c Hc. apply in_map_iff in Hc. destruct Hc as [c0 [<- Hc0]].
    specialize (H7 c0 Hc0). unfold write.
    destruct (hasSlug slug c0); simpl; lia.
  - exact H8.
Qed.

Lemma categoriesDelete_preserves (slug : string) :
  Preserves (categoriesDelete slug).
Proof.
  intros st Hwf. unfold categoriesDelete.
  destruct (find (hasSlug slug) (categories st)) as [existing|] eqn:Hf;
    [|apply (WellFormed_rows st); simpl; auto; lia].
  destruct (existsb _ (questions st)) eqn:Hheld;
    [apply (WellFormed_rows st); simpl; auto; lia|].
  pose proof (hasSlug_unique slug st Hwf) as Hone.
  destruct (find_hasSlug _ _ _ Hf) as [Hex Hexs].
  destruct Hwf as [H1 H2 H3 H4 H5 H6 H7 H8].
  constructor; simpl; try (apply NoDup_map_filter; assumption); auto.
  - intros q Hq. apply categoryExists_iff. simpl.
    specialize (H6 q Hq). apply categoryExists_iff in H6.
    apply in_map_iff in H6. destruct H6 as [c [Hid Hc]].
    apply in_map_iff. exists c. split; [exact Hid|].
    apply filter_In. split; [exact Hc|].
    destruct (hasSlug slug c) eqn:Hs; [|reflexivity].
    assert (c = existing).
    { apply Hone; auto. unfold hasSlug. rewrite Hexs.
      apply String.eqb_refl. }
    subst c.
    assert (existsb (inCategory (cat_id existing)) (questions st) = true).
    { apply existsb_exists. exists q. split; [exact Hq|].
      unfold inCategory. apply Z.eqb_eq. auto. }
    congruence.
  - intros c Hc. apply filter_In in Hc. apply H7. tauto.
Qed.

Lemma questionsCreate_preserves (data : QuestionData) :
  Preserves (questionsCreate data).
Proof.
  intros st Hwf. unfold questionsCreate.
  destruct (trunc (data_categoryId data)) as [categoryId|];
    [|apply (WellFormed_rows st); simpl; auto; lia].
  destruct (negb (inIntRange (nextQuestionId st)));
    [apply (WellFormed_rows st); simpl; auto; lia|].
  destruct (existsb _ (questions st)) eqn:Hfree;
    [apply (WellFormed_rows st); simpl; auto; lia|].
  destruct (negb (categoryExists categoryId st)) eqn:Hcat;
    [apply (WellFormed_rows st); simpl; auto; lia|].
  apply negb_false_iff in Hcat.
  destruct Hwf as [H1 H2 H3 H4 H5 H6 H7 H8].
  constructor; simpl; auto.
  - apply NoDup_map_snoc; [exact H4|]. simpl. intros Hin.
    apply in_map_iff in Hin. destruct Hin as [q [Hid Hq]].
    specialize (H8 q Hq). lia.
  - apply NoDup_map_snoc; [exact H5|]. simpl. intros Hin.
    apply in_map_iff in Hin. destruct Hin as [q [Hs Hq]].
    assert (existsb (fun q => String.eqb (q_slug q) (data_slug data))
              (questions st) = true).
    { apply existsb_exists. exists q. split; [exact Hq|].
      apply String.eqb_eq, Hs. }
    congruence.
  - intros q Hq. apply in_app_or in Hq. destruct Hq as [Hq|[<-|[]]].
    + apply (H6 q Hq).
    + exact Hcat.
  - intros q Hq. apply in_app_or in Hq. destruct Hq as [Hq|[<-|[]]].
    + specialize (H8 q Hq). lia.
    + simpl. lia.
Qed.

(** The ids stay within the range of the column, so the lookup by id tests
    the range first on every store the program can reach. *)
Lemma questionsCreate_ids_in_range (data : QuestionData) (st : Store) :
  IdsInRange st -> IdsInRange (snd (questionsCreate data st)).
Proof.
  intros H. unfold questionsCreate.
  destruct (trunc (data_categoryId data)) as [categoryId|]; [|exact H].
  destruct (inIntRange (nextQuestionId st)) eqn:Hr; [|exact H].
  cbn [negb]. destruct (existsb _ (questions st)); [exact H|].
  destruct (negb (categoryExists categoryId st)); [exact H|].
  intros q Hq. cbn [snd questions withQuestions] in Hq.
  apply in_app_or in Hq. destruct Hq as [Hq|[<-|[]]]; [apply H, Hq|].
  exact Hr.
Qed.

Lemma questionsUpdate_ids_in_range (id : Z) (data : QuestionData)
  (st : Store) :
  IdsInRange st -> IdsInRange (snd (questionsUpdate id data st)).
Proof.
  intros H. unfold questionsUpdate.
  destruct (trunc (data_categoryId data)) as [categoryId|]; [|exact H].
  destruct (find (hasId id) (questions st)) as [existing|]; [|exact H].
  destruct (existsb _ (questions st)); [exact H|].
  destruct (negb (categoryExists categoryId st)); [exact H|].
  intros q Hq. cbn [snd questions withQuestions] in Hq.
  apply in_map_iff in Hq. destruct Hq as [q0 [<- Hq0]].
  destruct (hasId id q0); apply (H q0 Hq0).
Qed.

Lemma questionsDelete_ids_in_range (id : Z) (st : Store) :
  IdsInRange st -> IdsInRange (snd (questionsDelete id st)).
Proof.
  intros H. unfold questionsDelete.
  destruct (find (hasId id) (questions st)) as [existing|]; [|exact H].
  intros q Hq. cbn [snd questions withQuestions] in Hq.
  apply filter_In in Hq. apply H, Hq.
Qed.

Lemma questionsFindUnique_range_first (id : Z) (st : Store) :
  IdsInRange st ->
  fst (questionsFindUnique id st) =
  if inIntRange id then Resolved (find (hasId id) (questions st))
  else Rejected InvalidArgument.
Proof.
  intros H. unfold questionsFindUnique.
  destruct (find (hasId id) (questions st)) as [q|] eqn:Hf.
  - destruct (StoreFacts.find_hasId _ _ _ Hf) as [Hin Hid].
    rewrite <- Hid, (H q Hin). reflexivity.
  - destruct (inIntRange id); reflexivity.
Qed.

Lemma questionsUpdate_preserves (id : Z) (data : QuestionData) :
  Preserves (questionsUpdate id data).
Proof.
  intros st Hwf. unfold questionsUpdate.
  destruct (trunc (data_categoryId data)) as [categoryId|];
    [|apply (WellFormed_rows st); simpl; auto; lia].
  destruct (find (hasId id) (questions st)) as [existing|] eqn:Hf;
    [|apply (WellFormed_rows st); simpl; auto; lia].
  destruct (existsb _ (questions st)) eqn:Hfree;
    [apply (WellFormed_rows st); simpl; auto; lia|].
  destruct (negb (categoryExists categoryId st)) eqn:Hcat;
    [apply (WellFormed_rows st); simpl; auto; lia|].
  apply negb_false_iff in Hcat.
  pose proof (hasId_unique id st Hwf) as Hone.
  destruct Hwf as [H1 H2 H3 H4 H5 H6 H7 H8].
  set (write := fun q => if hasId id q
                         then mkQuestion (q_id q) (data_question data)
                                (data_answer data) (data_slug data)
                                categoryId
                         else q).
  assert (Hids : map q_id (map write (questions st)) =
                 map q_id (questions st)).
  { rewrite map_map. apply map_ext. intros q. unfold write.
    destruct (hasId id q); reflexivity. }
  constructor; simpl; fold write; auto.
  - rewrite Hids. exact H4.
  - apply (NoDup_map_write q_slug (hasId id)
             (fun q => mkQuestion (q_id q) (data_question data)
                         (data_answer data) (data_slug data) categoryId)
             (data_slug data)); auto.
    intros q Hq Hs Heq.
    assert (existsb (fun q => negb (hasId id q)
                              && String.eqb (q_slug q) (data_slug data))
              (questions st) = true).
    { apply existsb_exists. exists q. split; [exact Hq|].
      rewrite Hs. simpl. apply String.eqb_eq, Heq. }
    congruence.
  - intros q Hq. apply in_map_iff in Hq. destruct Hq as [q0 [<- Hq0]].
    unfold write. destruct (hasId id q0); [exact Hcat | apply (H6 q0 Hq0)].
  - intros q Hq. apply in_map_iff in Hq. destruct Hq as [q0 [<- Hq0]].
    specialize (H8 q0 Hq0). unfold write.
    destruct (hasId id q0); simpl; lia.
Qed.

Lemma questionsDelete_preserves (id : Z) : Preserves (questionsDelete id).
Proof.
  intros st Hwf. unfold questionsDelete.
  destruct (find (hasId id) (questions st)) as [existing|] eqn:Hf;
    [|apply (WellFormed_rows st); simpl; auto; lia].
  destruct Hwf as [H1 H2 H3 H4 H5 H6 H7 H8].
  constructor; simpl; try (apply NoDup_map_filter; assumption); auto.
  - intros q Hq. apply filter_In in Hq. apply (H6 q). tauto.
  - intros q Hq. apply filter_In in Hq. apply H8. tauto.
Qed.

Lemma preserves_ret {A : Type} (a : A) : Preserves (ret a).
Proof. intros st Hwf. exact Hwf. Qed.

Lemma preserves_bind {A B : Type} (m : Client A) (k : A -> Client B) :
  Preserves m -> (forall a, Preserves (k a)) -> Preserves (bind m k).
Proof.
  intros Hm Hk st Hwf. unfold bind. specialize (Hm st Hwf).
  destruct (m st) as [[a|e] st1]; simpl in *; [apply Hk, Hm | exact Hm].
Qed.

Lemma preserves_tryCatch {A : Type} (m : Client A)
  (handler : Error -> Client A) :
  Preserves m -> (forall e, Preserves (handler e)) ->
  Preserves (tryCatch m handler).
Proof.
  intros Hm Hh st Hwf. unfold tryCatch. specialize (Hm st Hwf).
  destruct (m st) as [[a|e] st1]; simpl in *; [exact Hm | apply Hh, Hm].
Qed.

Lemma preserves_read {A : Type} (m : Client A) :
  (forall st, categories (snd (m st)) = categories st /\
              questions (snd (m st)) = questions st /\
              nextCategoryId (snd (m st)) = nextCategoryId st /\
              nextQuestionId (snd (m st)) = nextQuestionId st) ->
  Preserves m.
Proof.
  intros H st Hwf. destruct (H st) as [Hc [Hq [Hnc Hnq]]].
  apply (WellFormed_rows st); auto; lia.
Qed.

Lemma categoriesFindUnique_preserves (slug : string) :
  Preserves (categoriesFindUnique slug).
Proof. apply preserves_read. intros st. repeat split. Qed.

Lemma questionsFindUnique_preserves (id : Z) :
  Preserves (questionsFindUnique id).
Proof.
  apply preserves_read. intros st. unfold questionsFindUnique.
  destruct (find (hasId id) (questions st)); [repeat split|].
  destruct (inIntRange id); repeat split.
Qed.

Lemma questionsFindMany_preserves (categoryId : Z) :
  Preserves (questionsFindMany categoryId).
Proof. apply preserves_read. intros st. repeat split. Qed.

Create HintDb preserves.

#[local] Hint Resolve preserves_ret categoriesCreate_preserves
  categoriesUpdate_preserves categoriesDelete_preserves
  questionsCreate_preserves questionsUpdate_preserves
  questionsDelete_preserves categoriesFindUnique_preserves
  questionsFindUnique_preserves questionsFindMany_preserves : preserves.

Ltac preserve :=
  repeat first
    [ apply preserves_bind; [|intros ?]
    | apply preserves_tryCatch; [|intros ?]
    | match goal with |- Preserves (match ?x with _ => _ end) =>
        destruct x end
    | solve [auto with preserves] ].

Lemma createCategory_preserves (data : CategoryToCreate) :
  Preserves (createCategory data).
Proof. unfold createCategory. preserve. Qed.

Lemma updateCategory_preserves (slug : string) (changes : CategoryToUpdate) :
  Preserves (updateCategory slug changes).
Proof. unfold updateCategory. preserve. Qed.

Lemma deleteCategory_preserves (slug : string) :
  Preserves (deleteCategory slug).
Proof. unfold deleteCategory. preserve. Qed.

Lemma createQuestion_preserves (xss : string -> string)
  (data : QuestionToCreate) :
  Preserves (createQuestion xss data).
Proof. unfold createQuestion. preserve. Qed.

Lemma updateQuestion_preserves (xss : string -> string) (id : Z)
  (changes : QuestionToUpdate) :
  Preserves (updateQuestion xss id changes).
Proof. unfold updateQuestion. preserve. Qed.

Lemma deleteQuestion_preserves (id : Z) : Preserves (deleteQuestion id).
Proof. unfold deleteQuestion. preserve. Qed.

Lemma getQuestionByCategorySlug_preserves (slug : string) :
  Preserves (getQuestionByCategorySlug slug).
Proof. unfold getQuestionByCategorySlug. preserve. Qed.

Lemma emptyStore_wellFormed : WellFormed emptyStore.
Proof. constructor; simpl; try constructor; intros ? []. Qed.

Lemma seeded_wellFormed : WellFormed seeded.
Proof.
  constructor; simpl.
  1-5: repeat (constructor; [simpl; intuition (try discriminate; try lia)|]);
       constructor.
  - intros q [<-|[<-|[]]]; reflexivity.
  - intros c [<-|[<-|[<-|[]]]]; simpl; lia.
  - intros q [<-|[<-|[]]]; simpl; lia.
Qed.

(** X13: the constraints of the schema are invariants of the data-access
    layer: from a store in which ids, category titles and slugs are unique,
    every question refers to a stored category and the sequences are ahead
    of the ids in use, each service call ends in such a store, whether it
    resolves or is rejected; the empty store is such a store. *)
Theorem services_preserve_integrity (xss : string -> string) :
  (forall data, Preserves (createCategory data)) /\
  (forall slug changes, Preserves (updateCategory slug changes)) /\
  (forall slug, Preserves (deleteCategory slug)) /\
  (forall data, Preserves (createQuestion xss data)) /\
  (forall id changes, Preserves (updateQuestion xss id changes)) /\
  (forall id, Preserves (deleteQuestion id)) /\
  (forall slug, Preserves (getCategoryBySlug slug)) /\
  (forall id, Preserves (getQuestionById id)) /\
  (forall slug, Preserves (getQuestionByCategorySlug slug)) /\
  WellFormed emptyStore.
Proof.
  split; [exact createCategory_preserves|].
  split; [exact updateCategory_preserves|].
  split; [exact deleteCategory_preserves|].
  split; [exact (createQuestion_preserves xss)|].
  split; [exact (updateQuestion_preserves xss)|].
  split; [exact deleteQuestion_preserves|].
  split; [exact categoriesFindUnique_preserves|].
  split; [exact questionsFindUnique_preserves|].
  split; [exact getQuestionByCategorySlug_preserves|].
  exact emptyStore_wellFormed.
Qed.

Lemma services_preserve_integrity_witness :
  WellFormed
    (snd (deleteCategory "js"
            (snd (createQuestion escapeTags scriptQuestion
                    (snd (createCategory (mkCategoryToCreate "React")
                            seeded)))))).
Proof.
  destruct (services_preserve_integrity escapeTags)
    as [Hcc [_ [Hdc [Hcq _]]]].
  apply Hdc, Hcq, Hcc. exact seeded_wellFormed.
Defined.

End IntegrityFacts.

(** ** Writing, then reading *)

Module RoundTripFacts.

Import JsString JsValue Zod Validation Prisma CategoriesDb QuestionsDb.
Import Expected Integrity ValidationFacts StoreFacts CategoryFacts.
Import QuestionFacts CategoryMoreFacts IntegrityFacts Fixtures.

Lemma existsb_false_rows {A : Type} (p : A -> bool) (l : list A) :
  existsb p l = false -> forall x, In x l -> p x = false.
Proof.
  intros H x Hx. destruct (p x) eqn:E; [|reflexivity].
  assert (existsb p l = true) by (apply existsb_exists; eauto).
  congruence.
Qed.

(** X14: a category that updateCategory has just written is what
    getCategoryBySlug returns for its new slug, and when the slug changed
    the old slug matches nothing any more; the questions are untouched. *)
Theorem updateCategory_then_getCategoryBySlug (st st' : Store)
  (slug : string) (changes : CategoryToUpdate) (updated : Category) :
  updateCategory slug changes st = (Resolved (Some updated), st') ->
  fst (getCategoryBySlug (cat_slug updated) st') = Resolved (Some updated) /\
  (cat_slug updated <> slug ->
   fst (getCategoryBySlug slug st') = Resolved None) /\
  questions st' = questions st.
Proof.
  intros H.
  destruct (find (hasSlug slug) (categories st)) as [existing|] eqn:Hf;
    [|rewrite (updateCategory_absent _ _ _ Hf) in H; discriminate].
  rewrite (updateCategory_found _ _ _ _ Hf) in H.
  apply liftSome_resolved in H. unfold categoriesUpdate in H.
  cbn [categories sent data_title data_catSlug] in H. rewrite Hf in H.
  set (title := mergedTitle changes existing) in *.
  set (newSlug := mergedSlug changes existing) in *.
  destruct (existsb _ (categories st)) eqn:Hfree; [discriminate|].
  pose proof (existsb_false_rows _ _ Hfree) as Hrows. cbv beta in Hrows.
  destruct (find_hasSlug _ _ _ Hf) as [Hin Hs].
  assert (Hhas : hasSlug slug existing = true)
    by (unfold hasSlug; rewrite Hs; apply String.eqb_refl).
  rewrite Hhas in H. injection H as <- <-.
  unfold getCategoryBySlug, categoriesFindUnique.
  cbn [fst cat_slug categories withCategories sent questions].
  split; [|split; [|reflexivity]].
  - f_equal.
    rewrite (find_map_same (hasSlug slug) (hasSlug newSlug)).
    + rewrite Hf. simpl. rewrite Hhas. reflexivity.
    + intros y Hy. destruct (hasSlug slug y) eqn:Hy'.
      * unfold hasSlug. simpl. apply String.eqb_refl.
      * specialize (Hrows y Hy). rewrite Hy' in Hrows. simpl in Hrows.
        apply orb_false_elim in Hrows. apply Hrows.
  - intros Hne. f_equal. apply find_none_iff. intros y Hy.
    apply in_map_iff in Hy. destruct Hy as [y0 [<- Hy0]].
    destruct (hasSlug slug y0) eqn:Hy'; [|exact Hy'].
    unfold hasSlug. simpl. apply String.eqb_neq. exact Hne.
Qed.

Lemma updateCategory_then_getCategoryBySlug_witness :
  fst (getCategoryBySlug "updated-html"
         (snd (updateCategory "html"
                 (mkCategoryToUpdate (Some "Updated HTML")) seeded))) =
  Resolved (Some (mkCategory 1 "Updated HTML" "updated-html")) /\
  fst (getCategoryBySlug "html"
         (snd (updateCategory "html"
                 (mkCategoryToUpdate (Some "Updated HTML")) seeded))) =
  Resolved None.
Proof.
  destruct (updateCategory_then_getCategoryBySlug seeded
              (snd (updateCategory "html"
                      (mkCategoryToUpdate (Some "Updated HTML")) seeded))
              "html" (mkCategoryToUpdate (Some "Updated HTML"))
              (mkCategory 1 "Updated HTML" "updated-html") eq_refl)
    as [H1 [H2 _]].
  split; [exact H1|]. apply H2. discriminate.
Defined.

(** X15: when every category is stored with the slug of its title, it stays
    so after createCategory, after updateCategory with a validated change
    set and after deleteCategory. *)
Theorem category_slugs_stay_canonical (st : Store) :
  CanonicalSlugs st ->
  (forall data, CanonicalSlugs (snd (createCategory data st))) /\
  (forall slug input changes,
      validateCategoryForUpdate input = Success changes ->
      CanonicalSlugs (snd (updateCategory slug changes st))) /\
  (forall slug, CanonicalSlugs (snd (deleteCategory slug st))).
Proof.
  intros Hcan. split; [|split].
  - intros data c. rewrite createCategory_unfold. unfold categoriesCreate.
    destruct (existsb _ (categories st)); simpl; [apply Hcan|].
    intros Hc. apply in_app_or in Hc.
    destruct Hc as [Hc|[<-|[]]]; [apply Hcan, Hc | reflexivity].
  - intros slug input changes Hv c.
    apply validateCategoryForUpdate_success in Hv.
    destruct Hv as [_ [s [_ [Hl ->]]]].
    destruct (find (hasSlug slug) (categories st)) as [existing|] eqn:Hf.
    + rewrite (updateCategory_found _ _ _ _ Hf).
      unfold categoriesUpdate. cbn [categories sent]. rewrite Hf.
      unfold mergedTitle, mergedSlug. cbn [update_title].
      rewrite (truthy_lengthWithin 3 1024 s) by (lia || exact Hl).
      cbn [data_title data_catSlug].
      destruct (existsb _ (categories st)); simpl; [apply Hcan|].
      intros Hc. apply in_map_iff in Hc. destruct Hc as [c0 [<- Hc0]].
      destruct (hasSlug slug c0); [reflexivity | apply Hcan, Hc0].
    + rewrite (updateCategory_absent _ _ _ Hf). apply Hcan.
  - intros slug c.
    destruct (find (hasSlug slug) (categories st)) as [existing|] eqn:Hf.
    + rewrite (deleteCategory_found _ _ _ Hf).
      unfold categoriesDelete. cbn [categories questions sent]. rewrite Hf.
      destruct (existsb _ (questions st)); simpl; [apply Hcan|].
      intros Hc. apply filter_In in Hc. apply Hcan. tauto.
    + rewrite (deleteCategory_absent _ _ Hf). apply Hcan.
Qed.

Lemma category_slugs_stay_canonical_witness :
  CanonicalSlugs
    (snd (createCategory (mkCategoryToCreate "Type Script") tidy)) /\
  (categories
     (snd (updateCategory "html" (mkCategoryToUpdate (Some "Hyper Text"))
             tidy)) =
   [mkCategory 1 "Hyper Text" "hyper-text"; mkCategory 2 "CSS" "css"] /\
   CanonicalSlugs
     (snd (updateCategory "html" (mkCategoryToUpdate (Some "Hyper Text"))
             tidy))) /\
  (categories (snd (deleteCategory "css" tidy)) =
   [mkCategory 1 "HTML" "html"] /\
   CanonicalSlugs (snd (deleteCategory "css" tidy))).
Proof.
  assert (H : CanonicalSlugs tidy).
  { intros c [<-|[<-|[]]]; reflexivity. }
  destruct (category_slugs_stay_canonical tidy H) as [Hc [Hu Hd]].
  split; [apply Hc|]. split.
  - split; [reflexivity|].
    apply (Hu "html" (Object [("title", Str "Hyper Text")])). reflexivity.
  - split; [reflexivity | apply Hd].
Defined.





Lemma questionsCreate_in_range (data : QuestionData) (st st' : Store)
  (created : Question) :
  questionsCreate data st = (Resolved created, st') ->
  inIntRange (nextQuestionId st) = true.
Proof.
  unfold questionsCreate.
  destruct (trunc (data_categoryId data)); [|discriminate].
  destruct (inIntRange (nextQuestionId st)); [reflexivity | discriminate].
Qed.

(** X17: in a well-formed store, a question that createQuestion has just
    stored is what getQuestionById returns for its id, an id that matched
    nothing before the call. *)
Theorem createQuestion_then_getQuestionById (xss : string -> string)
  (st st' : Store) (data : QuestionToCreate) (created : Question) :
  WellFormed st ->
  createQuestion xss data st = (Resolved created, st') ->
  fst (getQuestionById (q_id created) st) = Resolved None /\
  fst (getQuestionById (q_id created) st') = Resolved (Some created).
Proof.
  intros Hwf H. rewrite createQuestion_unfold in H.
  pose proof (questionsCreate_in_range _ _ _ _ H) as Hr.
  apply questionsCreate_resolved in H.
  destruct H as [categoryId [_ [-> [Hq _]]]].
  unfold getQuestionById, questionsFindUnique. cbn [q_id].
  assert (Hnone : find (hasId (nextQuestionId st)) (questions st) = None).
  { apply find_none_iff. intros q Hin. unfold hasId. apply Z.eqb_neq.
    pose proof (wf_questionSequence st Hwf q Hin). lia. }
  rewrite Hnone, Hq, Hr. split; [reflexivity|].
  rewrite (find_app_none _ _ _ Hnone); [reflexivity|].
  unfold hasId. apply Z.eqb_refl.
Qed.

Lemma createQuestion_then_getQuestionById_witness :
  fst (getQuestionById 3
         (snd (createQuestion escapeTags scriptQuestion seeded))) =
  Resolved (Some (mkQuestion 3 "&lt;script&gt;alert(1)&lt;/script&gt;"
                    "A script element" "scriptalert1script" 1)).
Proof.
  apply (createQuestion_then_getQuestionById escapeTags seeded
           (snd (createQuestion escapeTags scriptQuestion seeded))
           scriptQuestion
           (mkQuestion 3 "&lt;script&gt;alert(1)&lt;/script&gt;"
              "A script element" "scriptalert1script" 1)
           seeded_wellFormed eq_refl).
Defined.

(** X18: in a well-formed store, updateQuestion with the empty change set on
    an existing question resolves with that question as it is and leaves
    both tables as they were. *)
Theorem updateQuestion_empty_changes (xss : string -> string) (st : Store)
  (id : Z) (existing : Question) :
  WellFormed st ->
  find (hasId id) (questions st) = Some existing ->
  fst (updateQuestion xss id (mkQuestionToUpdate None None None) st) =
  Resolved (Some existing) /\
  questions (snd (updateQuestion xss id (mkQuestionToUpdate None None None)
                    st)) = questions st /\
  categories (snd (updateQuestion xss id (mkQuestionToUpdate None None None)
                     st)) = categories st.
Proof.
  intros Hwf Hf.
  rewrite (updateQuestion_found xss id (mkQuestionToUpdate None None None)
             st existing eq_refl eq_refl Hf).
  unfold mergedData, questionsUpdate.
  cbn [update_question update_answer update_categoryId data_categoryId
       data_slug data_question data_answer questions sent].
  rewrite trunc_ofInt, Hf.
  destruct (find_hasId _ _ _ Hf) as [Hin Hid].
  assert (Hhas : hasId id existing = true)
    by (unfold hasId; rewrite Hid; apply Z.eqb_refl).
  assert (Hfree : existsb (fun q => negb (hasId id q)
                                    && String.eqb (q_slug q) (q_slug existing))
                    (questions st) = false).
  { destruct (existsb _ (questions st)) eqn:E; [|reflexivity].
    apply existsb_exists in E. destruct E as [q [Hq Hp]].
    apply andb_prop in Hp. destruct Hp as [Hn Hs].
    apply String.eqb_eq in Hs.
    assert (q = existing)
      by (apply (NoDup_map_inj q_slug (questions st)); auto; apply Hwf).
    subst q. rewrite Hhas in Hn. discriminate. }
  rewrite Hfree.
  assert (Hcat : categoryExists (q_categoryId existing)
                   (sent (QuestionsFindUnique id) st) = true).
  { pose proof (wf_foreignKey st Hwf existing Hin) as Hfk.
    exact Hfk. }
  rewrite Hcat. cbn [negb liftSome fst snd questions categories
                     withQuestions sent].
  rewrite Hhas.
  assert (Hsame : mkQuestion (q_id existing) (q_question existing)
                    (q_answer existing) (q_slug existing)
                    (q_categoryId existing) = existing)
    by (destruct existing; reflexivity).
  rewrite Hsame. split; [reflexivity|]. split; [|reflexivity].
  rewrite <- (map_id (questions st)) at 2. apply map_ext_in.
  intros q Hq. destruct (hasId id q) eqn:Hq'; [|reflexivity].
  assert (q = existing) by (apply (hasId_unique id st Hwf); auto).
  subst q. exact Hsame.
Qed.

Lemma updateQuestion_empty_changes_witness :
  fst (updateQuestion escapeTags 2 (mkQuestionToUpdate None None None)
         seeded) = Resolved (Some question2).
Proof.
  apply (updateQuestion_empty_changes escapeTags seeded 2 question2
           seeded_wellFormed eq_refl).
Defined.

End RoundTripFacts.

(** ** The routes *)

Module ApiFacts.

Import JsString JsValue Zod Validation Prisma CategoriesDb QuestionsDb.
Import Listing Routes Api Expected Integrity ValidationFacts StoreFacts.
Import CategoryFacts QuestionFacts CategoryMoreFacts IntegrityFacts.
Import RoundTripFacts Fixtures.

Lemma answers_ret {A : Type} (a : A) : Answers (ret a).
Proof. intros st. unfold ret. eauto. Qed.

Lemma answers_tryCatch {A : Type} (m : Client A)
  (handler : Error -> Client A) :
  (forall e, Answers (handler e)) -> Answers (tryCatch m handler).
Proof.
  intros Hh st. unfold tryCatch.
  destruct (m st) as [[a|e] st1]; [eauto | apply Hh].
Qed.

Ltac answer :=
  repeat first
    [ apply answers_ret
    | apply answers_tryCatch; intros ?
    | match goal with |- Answers (match ?x with _ => _ end) =>
        destruct x end ].

Lemma getCategories_preserves (limit offset : nat) :
  Preserves (getCategories limit offset).
Proof. apply preserves_read. intros st. repeat split. Qed.

Lemma getQuestions_preserves : Preserves getQuestions.
Proof. apply preserves_read. intros st. repeat split. Qed.

Create HintDb routes.

#[local] Hint Resolve preserves_ret createCategory_preserves
  updateCategory_preserves deleteCategory_preserves createQuestion_preserves
  updateQuestion_preserves deleteQuestion_preserves
  categoriesFindUnique_preserves questionsFindUnique_preserves
  getQuestionByCategorySlug_preserves getCategories_preserves
  getQuestions_preserves categoriesCreate_preserves
  categoriesUpdate_preserves categoriesDelete_preserves
  questionsCreate_preserves questionsUpdate_preserves
  questionsDelete_preserves questionsFindMany_preserves : routes.

Ltac route :=
  repeat first
    [ apply preserves_bind; [|intros ?]
    | apply preserves_tryCatch; [|intros ?]
    | match goal with |- Preserves (match ?x with _ => _ end) =>
        destruct x end
    | solve [auto with routes] ].

(** X19: no route ends in a rejection: whatever the request and the store,
    each handler resolves with a reply, a rejection of the store being
    caught and answered; and each handler takes a well-formed store to a
    well-formed store. *)
Theorem routes_always_answer (xss : string -> string) (param : string)
  (body : option t) :
  (Answers getCategoriesRoute /\ Preserves getCategoriesRoute) /\
  (Answers (getCategoryRoute param) /\ Preserves (getCategoryRoute param)) /\
  (Answers (postCategoryRoute body) /\ Preserves (postCategoryRoute body)) /\
  (Answers (patchCategoryRoute param body) /\
   Preserves (patchCategoryRoute param body)) /\
  (Answers (deleteCategoryRoute param) /\
   Preserves (deleteCategoryRoute param)) /\
  (Answers getQuestionsRoute /\ Preserves getQuestionsRoute) /\
  (Answers (getQuestionRoute param) /\ Preserves (getQuestionRoute param)) /\
  (Answers (postQuestionRoute xss body) /\
   Preserves (postQuestionRoute xss body)) /\
  (Answers (patchQuestionRoute xss param body) /\
   Preserves (patchQuestionRoute xss param body)) /\
  (Answers (deleteQuestionRoute param) /\
   Preserves (deleteQuestionRoute param)) /\
  (Answers (getCategoryQuestionsRoute param) /\
   Preserves (getCategoryQuestionsRoute param)).
Proof.
  unfold getCategoriesRoute, getCategoryRoute, postCategoryRoute,
    patchCategoryRoute, deleteCategoryRoute, getQuestionsRoute,
    getQuestionRoute, postQuestionRoute, patchQuestionRoute,
    deleteQuestionRoute, getCategoryQuestionsRoute, getCategoriesDefault,
    getCategoryBySlug, getQuestionById.
  repeat match goal with |- _ /\ _ => split end;
    first [solve [answer] | solve [route]].
Qed.

(** X20: the routes that carry a body validate before they touch the store:
    when the body does not parse or fails validation, POST /categories,
    PATCH /categories/:slug and POST /questions answer 400 and the store,
    journal included, is as it was; and they answer 400 in no other
    case. *)
Theorem body_routes_validate_first (xss : string -> string) (st : Store)
  (slug : string) (body : option t) :
  (exists reply st',
      postCategoryRoute body st = (Resolved reply, st') /\
      (code reply = 400 <->
       forall v, body = Some v ->
                 success (validateCategoryForCreate v) = false) /\
      (code reply = 400 -> st' = st)) /\
  (exists reply st',
      patchCategoryRoute slug body st = (Resolved reply, st') /\
      (code reply = 400 <->
       forall v, body = Some v ->
                 success (validateCategoryForUpdate v) = false) /\
      (code reply = 400 -> st' = st)) /\
  (exists reply st',
      postQuestionRoute xss body st = (Resolved reply, st') /\
      (code reply = 400 <->
       forall v, body = Some v ->
                 success (validateQuestionForCreate v) = false) /\
      (code reply = 400 -> st' = st)).
Proof.
  split; [|split].
  - unfold postCategoryRoute. destruct body as [v|].
    + destruct (validateCategoryForCreate v) as [data|errors] eqn:Hv.
      * unfold tryCatch, bind, ret.
        destruct (createCategory data st) as [[c|e] st1];
          do 2 eexists; (split; [reflexivity|]); simpl;
          (split; [split; [discriminate|] | discriminate]);
          intros H; specialize (H v eq_refl); rewrite Hv in H;
          discriminate.
      * do 2 eexists. split; [reflexivity|]. simpl.
        split; [|reflexivity]. split; [|reflexivity].
        intros _ w Hw. injection Hw as <-. rewrite Hv. reflexivity.
    + do 2 eexists. split; [reflexivity|]. simpl.
      split; [|reflexivity]. split; [|reflexivity]. intros _ w Hw.
      discriminate.
  - unfold patchCategoryRoute. destruct body as [v|].
    + destruct (validateCategoryForUpdate v) as [data|errors] eqn:Hv.
      * unfold tryCatch, bind, ret.
        destruct (updateCategory slug data st) as [[[c|]|e] st1];
          do 2 eexists; (split; [reflexivity|]); simpl;
          (split; [split; [discriminate|] | discriminate]);
          intros H; specialize (H v eq_refl); rewrite Hv in H;
          discriminate.
      * do 2 eexists. split; [reflexivity|]. simpl.
        split; [|reflexivity]. split; [|reflexivity].
        intros _ w Hw. injection Hw as <-. rewrite Hv. reflexivity.
    + do 2 eexists. split; [reflexivity|]. simpl.
      split; [|reflexivity]. split; [|reflexivity]. intros _ w Hw.
      discriminate.
  - unfold postQuestionRoute. destruct body as [v|].
    + destruct (validateQuestionForCreate v) as [data|errors] eqn:Hv.
      * unfold tryCatch, bind, ret.
        destruct (createQuestion xss data st) as [[c|e] st1];
          do 2 eexists; (split; [reflexivity|]); simpl;
          (split; [split; [discriminate|] | discriminate]);
          intros H; specialize (H v eq_refl); rewrite Hv in H;
          discriminate.
      * do 2 eexists. split; [reflexivity|]. simpl.
        split; [|reflexivity]. split; [|reflexivity].
        intros _ w Hw. injection Hw as <-. rewrite Hv. reflexivity.
    + do 2 eexists. split; [reflexivity|]. simpl.
      split; [|reflexivity]. split; [|reflexivity]. intros _ w Hw.
      discriminate.
Qed.



Lemma deleteCategoryRoute_reply (st : Store) (slug : string) :
  deleteCategoryRoute slug st =
  match find (hasSlug slug) (categories st) with
  | None =>
      (Resolved (mkReply 404 (ErrorJson "Category not found")),
       sent (CategoriesFindUnique slug) st)
  | Some existing =>
      if existsb (inCategory (cat_id existing)) (questions st)
      then (Resolved internal,
            sent (CategoriesDelete slug) (sent (CategoriesFindUnique slug) st))
      else (Resolved (mkReply 204 Empty),
            withCategories
              (filter (fun c => negb (hasSlug slug c)) (categories st))
              (sent (CategoriesDelete slug)
                 (sent (CategoriesFindUnique slug) st)))
  end.
Proof.
  unfold deleteCategoryRoute, tryCatch, bind.
  destruct (find (hasSlug slug) (categories st)) as [existing|] eqn:Hf.
  - rewrite (deleteCategory_found _ _ _ Hf). unfold categoriesDelete.
    cbn [categories questions sent]. rewrite Hf.
    destruct (existsb _ (questions st)); reflexivity.
  - rewrite (deleteCategory_absent _ _ Hf). reflexivity.
Qed.

Lemma getCategoryRoute_reply (st : Store) (slug : string) :
  fst (getCategoryRoute slug st) =
  Resolved
    match find (hasSlug slug) (categories st) with
    | None => mkReply 404 (MessageJson "Category not found")
    | Some c => mkReply 200 (CategoryJson c)
    end.
Proof.
  unfold getCategoryRoute, tryCatch, bind, getCategoryBySlug,
    categoriesFindUnique.
  destruct (find (hasSlug slug) (categories st)); reflexivity.
Qed.

(** X22: DELETE /categories/:slug answers 404 when no category has the
    slug, 204 when the category has no question, and 500 when a question
    still refers to it; only the 204 removes a row. *)
Theorem deleteCategoryRoute_spec (st : Store) (slug : string) :
  fst (deleteCategoryRoute slug st) =
  Resolved
    match find (hasSlug slug) (categories st) with
    | None => mkReply 404 (ErrorJson "Category not found")
    | Some existing =>
        if existsb (inCategory (cat_id existing)) (questions st)
        then internal
        else mkReply 204 Empty
    end /\
  (fst (deleteCategoryRoute slug st) <> Resolved (mkReply 204 Empty) ->
   categories (snd (deleteCategoryRoute slug st)) = categories st).
Proof.
  rewrite deleteCategoryRoute_reply.
  destruct (find (hasSlug slug) (categories st)) as [existing|].
  - destruct (existsb _ (questions st)); simpl.
    + split; reflexivity.
    + split; [reflexivity|]. intros H. elim H. reflexivity.
  - simpl. split; reflexivity.
Qed.

(** X23: the two routes that read by category slug answer 404 exactly when
    no category has the slug; otherwise GET /categories/:slug answers 200
    with that category and GET /categories/:slug/questions answers 200 with
    its questions in ascending order of id. *)
Theorem category_lookup_routes (st : Store) (slug : string) :
  fst (getCategoryRoute slug st) =
  Resolved
    match find (hasSlug slug) (categories st) with
    | None => mkReply 404 (MessageJson "Category not found")
    | Some c => mkReply 200 (CategoryJson c)
    end /\
  fst (getCategoryQuestionsRoute slug st) =
  Resolved
    match find (hasSlug slug) (categories st) with
    | None => mkReply 404 (ErrorJson "Category not found")
    | Some c =>
        mkReply 200
          (QuestionsJson
             (orderByIdAsc (filter (inCategory (cat_id c)) (questions st))))
    end.
Proof.
  split; [apply getCategoryRoute_reply|].
  - unfold getCategoryQuestionsRoute, tryCatch, bind.
    destruct (find (hasSlug slug) (categories st)) as [c|] eqn:Hf.
    + rewrite (getQuestionByCategorySlug_found _ _ _ Hf). reflexivity.
    + rewrite (getQuestionByCategorySlug_absent _ _ Hf). reflexivity.
Qed.



(** X25: the life of a category through the routes.  In a well-formed
    store, a POST /categories whose body is valid and whose title and slug
    are free answers 201; GET /categories/:slug with the new slug then
    answers 200 with the same category; DELETE /categories/:slug answers
    204; and GET answers 404 afterwards. *)
Theorem category_lifecycle (st : Store) (v : t) (data : CategoryToCreate) :
  WellFormed st ->
  validateCategoryForCreate v = Success data ->
  existsb (clashes (create_title data) (slugify (create_title data)))
    (categories st) = false ->
  exists created st1 st2,
    postCategoryRoute (Some v) st =
    (Resolved (mkReply 201 (CategoryJson created)), st1) /\
    cat_title created = create_title data /\
    fst (getCategoryRoute (cat_slug created) st1) =
    Resolved (mkReply 200 (CategoryJson created)) /\
    deleteCategoryRoute (cat_slug created) st1 =
    (Resolved (mkReply 204 Empty), st2) /\
    fst (getCategoryRoute (cat_slug created) st2) =
    Resolved (mkReply 404 (MessageJson "Category not found")).
Proof.
  intros Hwf Hv Hfree.
  destruct (createCategory_resolves data st Hfree) as [st1 Hc].
  set (created := mkCategory (nextCategoryId st) (create_title data)
                    (slugify (create_title data))) in *.
  destruct (createCategory_find _ _ _ _ Hc) as [_ [_ Hfind]].
  pose proof (createCategory_accepted _ _ _ _ Hc) as [_ [_ [_ [Hqs _]]]].
  assert (Hunref : existsb (inCategory (cat_id created)) (questions st1)
                   = false).
  { destruct (existsb _ (questions st1)) eqn:E; [|reflexivity].
    apply existsb_exists in E. destruct E as [q [Hq Hin]].
    rewrite Hqs in Hq. unfold inCategory in Hin. apply Z.eqb_eq in Hin.
    pose proof (wf_foreignKey st Hwf q Hq) as Hfk.
    apply categoryExists_iff in Hfk. apply in_map_iff in Hfk.
    destruct Hfk as [c [Hid Hcin]].
    pose proof (wf_categorySequence st Hwf c Hcin) as Hlt.
    simpl in Hin. lia. }
  exists created, st1, (snd (deleteCategoryRoute (cat_slug created) st1)).
  split; [|split; [|split; [|split]]].
  - unfold postCategoryRoute. rewrite Hv. unfold tryCatch, bind.
    rewrite Hc. reflexivity.
  - reflexivity.
  - rewrite getCategoryRoute_reply, Hfind. reflexivity.
  - rewrite deleteCategoryRoute_reply, Hfind, Hunref. reflexivity.
  - rewrite getCategoryRoute_reply, deleteCategoryRoute_reply, Hfind, Hunref.
    cbn [snd categories withCategories].
    rewrite (find_after_filter (hasSlug (cat_slug created))). reflexivity.
Qed.

Lemma category_lifecycle_witness :
  exists created st1 st2,
    postCategoryRoute (Some (Object [("title", Str "React")])) seeded =
    (Resolved (mkReply 201 (CategoryJson created)), st1) /\
    cat_title created = "React" /\
    fst (getCategoryRoute (cat_slug created) st1) =
    Resolved (mkReply 200 (CategoryJson created)) /\
    deleteCategoryRoute (cat_slug created) st1 =
    (Resolved (mkReply 204 Empty), st2) /\
    fst (getCategoryRoute (cat_slug created) st2) =
    Resolved (mkReply 404 (MessageJson "Category not found")).
Proof.
  apply (category_lifecycle seeded (Object [("title", Str "React")])
           (mkCategoryToCreate "React") seeded_wellFormed eq_refl eq_refl).
Defined.

End ApiFacts.

(** ** What parseInt reads of an id parameter *)

Module ParseFacts.

Import JsString Prisma QuestionsDb Routes RouteFacts Fixtures.

Lemma readDigits_prefix (s t : string) (acc : option Z) :
  allDigits s = true -> startsWithDigit t = false ->
  readDigits acc (s ++ t) = readDigits acc s.
Proof.
  revert acc. induction s as [|c r IH]; intros acc Hs Ht.
  - destruct t as [|d u]; [reflexivity|].
    simpl in *. rewrite Ht. reflexivity.
  - cbn [allDigits] in Hs. apply andb_prop in Hs. destruct Hs as [Hc Hr].
    cbn [append readDigits]. rewrite Hc. apply IH; assumption.
Qed.

Lemma digitValue_nonneg (c : ascii) : isDigit c = true -> 0 <= digitValue c.
Proof.
  destruct c as [[] [] [] [] [] [] [] []]; try discriminate;
    intros _; vm_compute; discriminate.
Qed.

Lemma readDigits_nonneg (s : string) (a : Z) :
  0 <= a -> exists n, readDigits (Some a) s = Some n /\ 0 <= n.
Proof.
  revert a. induction s as [|c r IH]; intros a Ha.
  - exists a. split; [reflexivity | exact Ha].
  - cbn [readDigits]. destruct (isDigit c) eqn:Hc.
    + apply IH. pose proof (digitValue_nonneg c Hc). lia.
    + exists a. split; [reflexivity | exact Ha].
Qed.

Lemma parseInt_digit_first (c : ascii) (r : string) :
  isDigit c = true -> parseInt (String c r) = readDigits None (String c r).
Proof.
  destruct c as [[] [] [] [] [] [] [] []]; try discriminate; reflexivity.
Qed.

(** X26: what parseInt reads of a text of decimal digits: a value that is
    not negative; the same value when anything that does not start with a
    digit follows, or when a plus sign or white space comes first; and the
    opposite value after a minus sign.  So GET /questions/:id answers a
    parameter with such a tail as it answers the digits alone. *)
Theorem parseInt_digits (s t : string) :
  isNumericString s = true -> startsWithDigit t = false ->
  exists n,
    0 <= n /\
    parseInt s = Some n /\
    parseInt (s ++ t) = Some n /\
    parseInt (String "+" (s ++ t)) = Some n /\
    parseInt (String " " (s ++ t)) = Some n /\
    parseInt (String "-" (s ++ t)) = Some (- n) /\
    forall st, getQuestionRoute (s ++ t) st = getQuestionRoute s st.
Proof.
  unfold isNumericString. intros Hs Ht.
  apply andb_prop in Hs. destruct Hs as [Hne Hd].
  destruct s as [|c r]; [discriminate|].
  pose proof Hd as Hd'. cbn [allDigits] in Hd'.
  apply andb_prop in Hd'. destruct Hd' as [Hc Hr].
  assert (Hread : exists n, readDigits None (String c r) = Some n /\ 0 <= n).
  { cbn [readDigits]. rewrite Hc. apply readDigits_nonneg.
    pose proof (digitValue_nonneg c Hc). lia. }
  destruct Hread as [n [Hn Hpos]].
  assert (Htail : readDigits None (String c r ++ t) = Some n)
    by (rewrite (readDigits_prefix _ _ _ Hd Ht); exact Hn).
  assert (Hfull : parseInt (String c r ++ t) = Some n).
  { cbn [append]. rewrite (parseInt_digit_first c (r ++ t) Hc).
    exact Htail. }
  assert (Hplain : parseInt (String c r) = Some n)
    by (rewrite (parseInt_digit_first c r Hc); exact Hn).
  exists n. split; [exact Hpos|]. split; [exact Hplain|].
  split; [exact Hfull|]. split; [|split; [|split]].
  - change (parseInt (String "+" (String c r ++ t)))
      with (readDigits None (String c r ++ t)). exact Htail.
  - change (parseInt (String " " (String c r ++ t)))
      with (parseInt (String c r ++ t)). exact Hfull.
  - change (parseInt (String "-" (String c r ++ t)))
      with (option_map Z.opp (readDigits None (String c r ++ t))).
    rewrite Htail. reflexivity.
  - intros st. unfold getQuestionRoute. rewrite Hfull, Hplain. reflexivity.
Qed.

Lemma parseInt_digits_witness :
  exists n,
    0 <= n /\
    parseInt "12" = Some n /\
    parseInt "12abc" = Some n /\
    parseInt "+12abc" = Some n /\
    parseInt " 12abc" = Some n /\
    parseInt "-12abc" = Some (- n) /\
    forall st, getQuestionRoute "12abc" st = getQuestionRoute "12" st.
Proof.
  apply (parseInt_digits "12" "abc"); reflexivity.
Defined.

End ParseFacts.
